(** * glob2: shell-style globbing with recursive wildcards and captures

    A shallow embedding of [glob2/impl.py]: the pattern translator
    ([translate], [_compile_pattern]), the matcher of the standard [re]
    module on the regular expressions the translator writes, and the resolver
    ([Globber.walk], [Globber.filter], [Globber.resolve_pattern],
    [Globber._iglob]).

    Conventions of the embedding.
    - A Python string is a list of code units, [text = list ascii]; these are
      the bytes of the [bytes] path of [_compile_pattern], where [re] folds the
      case of ASCII letters only.
    - The platform is POSIX: [os.sep] is [/], [os.curdir] is [.],
      [os.path.join] and [os.path.split] are those of [posixpath],
      [os.path.normcase] is the identity and [os.name] is not [nt].
    - The filesystem is the capability set of the [Globber] class:
      [listdir], [isdir], [islink], [exists].  [listdir] may raise [os.error],
      the three predicates of [os.path] answer [False] instead of raising.
    - A generator is embedded as the list of everything it yields.
    - An exception is a value [Raise e]; a computation that walks the
      filesystem takes fuel and answers [None] when the fuel runs out. *)

From Equations Require Import Equations.
From Stdlib Require Import List Ascii String Bool Arith Lia.
Import ListNotations.

(** ** Strings as sequences of code units *)

Definition text := list ascii.

Definition str (s : string) : text := list_ascii_of_string s.
Arguments str s%_string.

Fixpoint text_eqb (a b : text) : bool :=
  match a, b with
  | [], [] => true
  | x :: a', y :: b' => Ascii.eqb x y && text_eqb a' b'
  | _, _ => false
  end.

(** [s.startswith(p)] *)
Fixpoint startswith (p s : text) : bool :=
  match p, s with
  | [], _ => true
  | x :: p', y :: s' => Ascii.eqb x y && startswith p' s'
  | _ :: _, [] => false
  end.

(** [s.endswith(p)] *)
Definition endswith (p s : text) : bool := startswith (rev p) (rev s).

(** [s.rstrip(c)] for a single code unit [c] *)
Fixpoint lstrip (c : ascii) (s : text) : text :=
  match s with
  | x :: s' => if Ascii.eqb x c then lstrip c s' else s
  | [] => []
  end.

Definition rstrip (c : ascii) (s : text) : text := rev (lstrip c (rev s)).

(** ** Exceptions *)

Inductive exn : Type :=
| IndexError   (**r indexing an empty sequence *)
| OSError      (**r [os.error], raised by a failing [listdir] *)
| ReError.     (**r [re.error], raised by [re.compile] *)

Inductive result (A : Type) : Type :=
| Ok (a : A)
| Raise (e : exn).
Arguments Ok {A} a.
Arguments Raise {A} e.

Definition bind {A B} (m : result A) (k : A -> result B) : result B :=
  match m with
  | Ok a => k a
  | Raise e => Raise e
  end.

(** A computation that may also run out of fuel. *)
Definition comp (A : Type) : Type := option (result A).

Definition ret {A} (a : A) : comp A := Some (Ok a).

Definition throw {A} (e : exn) : comp A := Some (Raise e).

Definition lift {A} (m : result A) : comp A := Some m.

Definition cbind {A B} (m : comp A) (k : A -> comp B) : comp B :=
  match m with
  | Some (Ok a) => k a
  | Some (Raise e) => Some (Raise e)
  | None => None
  end.

Declare Scope comp_scope.
Delimit Scope comp_scope with comp.
Notation "x <- m ;; k" := (cbind m (fun x => k))
  (at level 61, m at next level, right associativity) : comp_scope.

(** [for x in xs: ys.extend(f(x))], stopping at the first exception. *)
Fixpoint for_each {A B} (f : A -> comp (list B)) (xs : list A) : comp (list B) :=
  match xs with
  | [] => ret []
  | x :: xs' =>
      (ys <- f x ;;
       zs <- for_each f xs' ;;
       ret (ys ++ zs))%comp
  end.

(** ** [has_magic] and [_ishidden] *)

Definition star : ascii := "*"%char.
Definition qmark : ascii := "?"%char.
Definition lbracket : ascii := "["%char.
Definition rbracket : ascii := "]"%char.
Definition bang : ascii := "!"%char.
Definition caret : ascii := "^"%char.
Definition dot : ascii := "."%char.
Definition slash : ascii := "/"%char.
Definition backslash : ascii := "\"%char.
Definition dash : ascii := "-"%char.
Definition lparen : ascii := "("%char.
Definition rparen : ascii := ")"%char.

(** [magic_check = re.compile('[*?[]')] on one code unit *)
Definition is_magic (c : ascii) : bool :=
  Ascii.eqb c star || Ascii.eqb c qmark || Ascii.eqb c lbracket.

(** [has_magic(s)]: [magic_check.search(s) is not None] *)
Definition has_magic (s : text) : bool := existsb is_magic s.

(** [_ishidden(path)]: [path[0] in ('.', b'.'[0])]; indexing the empty
    string raises [IndexError]. *)
Definition _ishidden (path : text) : result bool :=
  match path with
  | [] => Raise IndexError
  | c :: _ => Ok (Ascii.eqb c dot)
  end.

(** ** Paths: [posixpath.join], [posixpath.split], [re.sub(r'[\\/]', sep, path)] *)

(** [os.path.join(a, b)] *)
Definition join2 (a b : text) : text :=
  if startswith [slash] b then b
  else if text_eqb a [] || endswith [slash] a then a ++ b
  else a ++ slash :: b.

(** [os.path.join] of a list of paths; the call without argument is a
    [TypeError] and does not occur: every call site passes two paths. *)
Definition join (paths : list text) : text :=
  match paths with
  | [] => []
  | a :: ps => fold_left join2 ps a
  end.

(** [re.sub(r'[\\/]', sep, path)].  [re.sub] reads a backslash in the
    replacement as an escape; a [separator] holds none, so that it is
    substituted as it is. *)
Definition is_sep (c : ascii) : bool := Ascii.eqb c backslash || Ascii.eqb c slash.

Record separator : Type := mk_separator {
  sep_text : text;
  sep_plain : existsb (Ascii.eqb backslash) sep_text = false
}.

Definition sub_seps (sep path : text) : text :=
  flat_map (fun c => if is_sep c then sep else [c]) path.

(** [_join_paths(paths, sep=None)]; [if sep:] is false on [None] and on the
    empty string. *)
Definition _join_paths (paths : list text) (sep : option separator) : text :=
  let path := join paths in
  match sep with
  | Some s =>
      match sep_text s with
      | [] => path
      | _ :: _ => sub_seps (sep_text s) path
      end
  | None => path
  end.

(** [p.rfind('/') + 1]: the length of the longest prefix that ends with a
    slash, [0] when there is none. *)
Fixpoint rfind_slash_succ (p : text) : nat :=
  match p with
  | [] => 0
  | c :: p' =>
      match rfind_slash_succ p' with
      | 0 => if Ascii.eqb c slash then 1 else 0
      | S k => S (S k)
      end
  end.

(** [os.path.split(p)] *)
Definition split (p : text) : text * text :=
  let i := rfind_slash_succ p in
  let head := firstn i p in
  let tail := skipn i p in
  let head := if negb (text_eqb head []) && negb (text_eqb head (repeat slash (List.length head)))
              then rstrip slash head else head in
  (head, tail).


(** ** The pattern translator *)

(** [re.escape(c)] for one code unit: the special characters of [re] get a
    backslash, every other code unit is left as it is. *)
Definition re_special : text := str "()[]{}?*+-|^$\.&~# " ++
  [ascii_of_nat 9; ascii_of_nat 10; ascii_of_nat 13; ascii_of_nat 11; ascii_of_nat 12].

Definition escape (c : ascii) : text :=
  if existsb (Ascii.eqb c) re_special then [backslash; c] else [c].

(** [s.replace('\\', '\\\\')] *)
Definition double_backslashes (s : text) : text :=
  flat_map (fun c => if Ascii.eqb c backslash then [backslash; backslash] else [c]) s.

(** The offset of the first [rbracket] of [s], if there is one: the loop
    [while j < n and pat[j] != ']': j = j+1]. *)
Fixpoint find_rbracket (s : text) : option nat :=
  match s with
  | [] => None
  | c :: s' => if Ascii.eqb c rbracket then Some 0 else option_map S (find_rbracket s')
  end.

(** The scan for the end of a character class, on the text [s = pat[i:]] that
    follows the bracket: [Some (j - i)] when the scan stops at a closing
    bracket ([j < n]), [None] when it reaches the end of the pattern. *)
Definition class_end (s : text) : option nat :=
  let j := 0 in
  let j := if startswith [bang] (skipn j s) then j + 1 else j in
  let j := if startswith [rbracket] (skipn j s) then j + 1 else j in
  option_map (Nat.add j) (find_rbracket (skipn j s)).

(** The body of the [while i < n] loop of [translate], on the rest [pat[i:]]
    of the pattern and the text [res] written so far. *)
Equations translate_loop (s : text) (res : text) : result text by wf (List.length s) lt :=
translate_loop [] res := Ok res;
translate_loop (c :: s) res :=
  if Ascii.eqb c star then translate_loop s (res ++ str "(.*)")
  else if Ascii.eqb c qmark then translate_loop s (res ++ str "(.)")
  else if Ascii.eqb c lbracket then
    match class_end s with
    | None => translate_loop s (res ++ str "\[")
    | Some k =>
        match double_backslashes (firstn k s) with
        | [] => Raise IndexError
        | (c0 :: tl) as stuff =>
            let stuff := if Ascii.eqb c0 bang then caret :: tl
                         else if Ascii.eqb c0 caret then backslash :: stuff
                         else stuff in
            translate_loop (skipn (S k) s) (res ++ str "([" ++ stuff ++ str "])")
        end
    end
  else translate_loop s (res ++ escape c).
Next Obligation.
  destruct s as [|x s']; simpl; [lia | rewrite length_skipn; lia].
Qed.

(** [translate(pat)] *)
Definition translate (pat : text) : result text :=
  bind (translate_loop pat []) (fun res => Ok (res ++ str "\Z(?ms)")).

(** ** The regular expressions of [re] that [translate] writes

    [re.compile] and the match method of the compiled pattern are modelled on
    the fragment of the syntax that [translate] can write: literal code
    units, a backslash before a code unit that is no letter or digit, the dot,
    character sets with ranges and negation, the star after a single-unit
    item, capture groups that do not nest, [\Z], and a group of the global
    flags [m] and [s].  A regular expression outside this fragment gets no
    answer ([None]); [translate_in_fragment] shows that [translate] never
    writes one. *)

Inductive cset_item : Type :=
| CLit (c : ascii)
| CRange (lo hi : ascii).

Inductive atom : Type :=
| ALit (c : ascii)                          (**r one code unit *)
| AAny                                      (**r the dot *)
| ASet (neg : bool) (items : list cset_item).

(** The compiled form is the flat code of the matching engine: a capture
    group is a pair of marks around its body. *)
Inductive node : Type :=
| NChar (a : atom)
| NStar (a : atom)    (**r greedy repetition of a single-unit item *)
| NOpen
| NClose
| NEndZ.              (**r [\Z]: the end of the string *)

Inductive pmode : Type :=
| PTop
| PEsc                                                  (**r after a backslash *)
| PParen                                                (**r after an opening parenthesis *)
| PFlags (seen : bool)                                  (**r inside a flag group *)
| PSetNeg                                               (**r after the bracket that opens a set *)
| PSet (neg : bool) (items : list cset_item)            (**r an item of the set is expected *)
| PSetEsc (neg : bool) (items : list cset_item)         (**r after a backslash in a set *)
| PSetLit (neg : bool) (items : list cset_item) (c : ascii)      (**r [c] is read, a dash may follow *)
| PSetDash (neg : bool) (items : list cset_item) (c : ascii)     (**r [c] and a dash are read *)
| PSetDashEsc (neg : bool) (items : list cset_item) (c : ascii). (**r [c], a dash and a backslash *)

Record pstate : Type := mk_pstate {
  p_mode : pmode;
  p_nodes : list node;      (**r the code so far, last node first *)
  p_open : bool;            (**r inside a capture group *)
  p_multiline : bool;
  p_dotall : bool
}.

Definition p_init : pstate := mk_pstate PTop [] false false false.

Definition set_mode (m : pmode) (st : pstate) : pstate :=
  mk_pstate m (p_nodes st) (p_open st) (p_multiline st) (p_dotall st).

Definition push (n : node) (st : pstate) : pstate :=
  mk_pstate PTop (n :: p_nodes st) (p_open st) (p_multiline st) (p_dotall st).

Definition is_alnum (c : ascii) : bool :=
  let n := nat_of_ascii c in
  ((48 <=? n) && (n <=? 57)) || ((65 <=? n) && (n <=? 90)) || ((97 <=? n) && (n <=? 122)).

(** An item of the top level. *)
Definition step_top (st : pstate) (c : ascii) : comp pstate :=
  if Ascii.eqb c backslash then ret (set_mode PEsc st)
  else if Ascii.eqb c lparen then
    if p_open st then None else ret (set_mode PParen st)
  else if Ascii.eqb c rparen then
    if p_open st
    then ret (mk_pstate PTop (NClose :: p_nodes st) false (p_multiline st) (p_dotall st))
    else throw ReError
  else if Ascii.eqb c lbracket then ret (set_mode PSetNeg st)
  else if Ascii.eqb c dot then ret (push (NChar AAny) st)
  else if Ascii.eqb c star then
    match p_nodes st with
    | NChar a :: ns =>
        ret (mk_pstate PTop (NStar a :: ns) (p_open st) (p_multiline st) (p_dotall st))
    | NStar _ :: _ => throw ReError
    | NClose :: _ => None
    | NOpen :: _ | NEndZ :: _ | [] => throw ReError
    end
  else if existsb (Ascii.eqb c) (str "+?{|^$") then None
  else ret (push (NChar (ALit c)) st).

(** An item of a character set, [items] being the items read so far. *)
Definition step_set (st : pstate) (neg : bool) (items : list cset_item) (c : ascii)
  : comp pstate :=
  if Ascii.eqb c rbracket && negb (match items with [] => true | _ => false end)
  then ret (push (NChar (ASet neg items)) st)
  else if Ascii.eqb c backslash then ret (set_mode (PSetEsc neg items) st)
  else ret (set_mode (PSetLit neg items c) st).

(** The end [hi] of a range that starts at [lo]. *)
Definition step_range (st : pstate) (neg : bool) (items : list cset_item) (lo hi : ascii)
  : comp pstate :=
  if nat_of_ascii hi <? nat_of_ascii lo then throw ReError
  else ret (set_mode (PSet neg (items ++ [CRange lo hi])) st).

Definition step (st : pstate) (c : ascii) : comp pstate :=
  match p_mode st with
  | PTop => step_top st c
  | PEsc =>
      if Ascii.eqb c "Z"%char then ret (push NEndZ st)
      else if is_alnum c then None
      else ret (push (NChar (ALit c)) st)
  | PParen =>
      if Ascii.eqb c qmark then ret (set_mode (PFlags false) st)
      else step_top (mk_pstate PTop (NOpen :: p_nodes st) true (p_multiline st) (p_dotall st)) c
  | PFlags seen =>
      if Ascii.eqb c "m"%char
      then ret (mk_pstate (PFlags true) (p_nodes st) (p_open st) true (p_dotall st))
      else if Ascii.eqb c "s"%char
      then ret (mk_pstate (PFlags true) (p_nodes st) (p_open st) (p_multiline st) true)
      else if Ascii.eqb c rparen && seen then ret (set_mode PTop st)
      else None
  | PSetNeg =>
      if Ascii.eqb c caret then ret (set_mode (PSet true []) st)
      else step_set st false [] c
  | PSet neg items => step_set st neg items c
  | PSetEsc neg items =>
      if is_alnum c then None else ret (set_mode (PSetLit neg items c) st)
  | PSetLit neg items c1 =>
      if Ascii.eqb c dash then ret (set_mode (PSetDash neg items c1) st)
      else step_set st neg (items ++ [CLit c1]) c
  | PSetDash neg items c1 =>
      if Ascii.eqb c rbracket
      then ret (push (NChar (ASet neg (items ++ [CLit c1; CLit dash]))) st)
      else if Ascii.eqb c backslash then ret (set_mode (PSetDashEsc neg items c1) st)
      else step_range st neg items c1 c
  | PSetDashEsc neg items c1 =>
      if is_alnum c then None else step_range st neg items c1 c
  end.

Definition steps (src : text) (st : comp pstate) : comp pstate :=
  fold_left (fun m c => cbind m (fun st => step st c)) src st.

(** A compiled pattern. *)
Record regex : Type := mk_regex {
  re_nodes : list node;
  re_dotall : bool;
  re_ignorecase : bool
}.

(** [re.compile(src, flags)], [flags] being [re.IGNORECASE] or [0]. *)
Definition re_compile (src : text) (ignorecase : bool) : comp regex :=
  cbind (steps src (ret p_init)) (fun st =>
    match p_mode st, p_open st with
    | PTop, false => ret (mk_regex (rev (p_nodes st)) (p_dotall st) ignorecase)
    | _, _ => throw ReError
    end).

(** *** Matching *)

Definition lower (c : ascii) : ascii :=
  let n := nat_of_ascii c in
  if (65 <=? n) && (n <=? 90) then ascii_of_nat (n + 32) else c.

Definition upper (c : ascii) : ascii :=
  let n := nat_of_ascii c in
  if (97 <=? n) && (n <=? 122) then ascii_of_nat (n - 32) else c.

Definition item_has (c : ascii) (it : cset_item) : bool :=
  match it with
  | CLit x => Ascii.eqb x c
  | CRange lo hi => (nat_of_ascii lo <=? nat_of_ascii c) && (nat_of_ascii c <=? nat_of_ascii hi)
  end.

Definition set_has (items : list cset_item) (c : ascii) : bool :=
  existsb (item_has c) items.

Definition newline : ascii := ascii_of_nat 10.

(** Does the single-unit item [a] accept the code unit [c]? *)
Definition accepts (ignorecase dotall : bool) (a : atom) (c : ascii) : bool :=
  match a with
  | ALit x => if ignorecase then Ascii.eqb (lower x) (lower c) else Ascii.eqb x c
  | AAny => dotall || negb (Ascii.eqb c newline)
  | ASet neg items =>
      xorb neg (if ignorecase then set_has items (lower c) || set_has items (upper c)
                else set_has items c)
  end.

(** The state of a match: the text of the group that is open, and the groups
    that are closed. *)
Record mstate : Type := mk_mstate {
  m_cur : option text;
  m_groups : list text
}.

Definition feed (c : ascii) (m : mstate) : mstate :=
  mk_mstate (option_map (fun t => t ++ [c]) (m_cur m)) (m_groups m).

(** The backtracking matcher: [run r s m] matches the code [r] at the head
    of [s]; a star takes as many code units as it can and gives them back one
    at a time. *)
Fixpoint run (ic da : bool) (r : list node) (s : text) (m : mstate) : option mstate :=
  match r with
  | [] => Some m
  | NChar a :: r' =>
      match s with
      | c :: s' => if accepts ic da a c then run ic da r' s' (feed c m) else None
      | [] => None
      end
  | NStar a :: r' =>
      (fix more (s : text) (m : mstate) : option mstate :=
         match s with
         | c :: s' =>
             if accepts ic da a c
             then match more s' (feed c m) with
                  | Some m' => Some m'
                  | None => run ic da r' s m
                  end
             else run ic da r' s m
         | [] => run ic da r' [] m
         end) s m
  | NOpen :: r' => run ic da r' s (mk_mstate (Some []) (m_groups m))
  | NClose :: r' =>
      run ic da r' s (mk_mstate None
                        (m_groups m ++ match m_cur m with Some t => [t] | None => [] end))
  | NEndZ :: r' =>
      match s with
      | [] => run ic da r' [] m
      | _ :: _ => None
      end
  end.

(** [pattern.match(s)]: [None] when there is no match, and [m.groups()] of
    the match object otherwise. *)
Definition re_match (r : regex) (s : text) : option (list text) :=
  option_map m_groups
    (run (re_ignorecase r) (re_dotall r) (re_nodes r) s (mk_mstate None [])).

(** [_compile_pattern(pat, case_sensitive)]; the [lru_cache] in front of it
    does not change what it returns. *)
Definition _compile_pattern (pat : text) (case_sensitive : bool) : comp regex :=
  cbind (lift (translate pat)) (fun res => re_compile res (negb case_sensitive)).

(** ** The resolver *)

Definition curdir : text := str ".".
Definition os_sep : text := str "/".

(** A match: the path or name, and the texts the wildcards matched. *)
Definition found : Type := (text * list text)%type.

Module Globber.

(** The configuration of a [Globber] and its capability set.  [listdir]
    answers [None] when it raises [os.error]. *)
Record t : Type := mk {
  with_matches : bool;
  include_hidden : bool;
  followlinks : bool;
  norm_paths : option bool;
  case_sensitive : bool;
  sep : option separator;
  listdir : text -> option (list text);
  isdir : text -> bool;
  islink : text -> bool;
  exists_ : text -> bool
}.

Section Methods.

Variable self : t.

(** [self.sep or os.sep] *)
Definition sep_or_os_sep : text :=
  match sep self with
  | Some s =>
      match sep_text s with
      | [] => os_sep
      | _ :: _ => sep_text s
      end
  | None => os_sep
  end.

(** [_norm_paths(self, path)] *)
Definition _norm_paths (path : text) : text :=
  match norm_paths self with
  | None => sub_seps sep_or_os_sep path
  | Some true => path          (**r [os.path.normcase] of [posixpath] *)
  | Some false => path
  end.

(** [walk(self, top)]: the pairs [(top, items)] it yields, in order. *)
Fixpoint walk (fuel : nat) (top : text) : comp (list (text * list text)) :=
  match fuel with
  | 0 => None
  | S fuel' =>
      match listdir self top with
      | None => ret []
      | Some items =>
          (below <- for_each (fun name =>
                      let new_path := _join_paths [top; name] (sep self) in
                      if followlinks self || negb (islink self new_path)
                      then walk fuel' new_path
                      else ret []) items ;;
           ret ((top, items) :: below))%comp
      end
  end.

(** [filter(self, names, pat)] *)
Definition filter (names : list text) (pat : text) : comp (list found) :=
  let pat := _norm_paths pat in
  (match_ <- _compile_pattern pat (case_sensitive self) ;;
   ret (flat_map (fun name =>
          match re_match match_ (_norm_paths name) with
          | Some groups => [(name, map _norm_paths groups)]
          | None => []
          end) names))%comp.

(** [fnmatchcase(self, name, pat)] *)
Definition fnmatchcase (name pat : text) : comp bool :=
  (match_ <- _compile_pattern pat (case_sensitive self) ;;
   ret (match re_match match_ name with Some _ => true | None => false end))%comp.

(** [fnmatch(self, name, pat)] *)
Definition fnmatch (name pat : text) : comp bool :=
  fnmatchcase (_norm_paths name) (_norm_paths pat).

(** [lambda x: not x or not _ishidden(x)] *)
Definition not_hidden (x : text) : result bool :=
  if text_eqb x [] then Ok true
  else bind (_ishidden x) (fun h => Ok (negb h)).

(** [filter(lambda x: not x or not _ishidden(x), names)] *)
Fixpoint remove_hidden (names : list text) : result (list text) :=
  match names with
  | [] => Ok []
  | x :: names' =>
      bind (not_hidden x) (fun keep =>
      bind (remove_hidden names') (fun rest =>
      Ok (if keep then x :: rest else rest)))
  end.

(** The names that the [**] branch of [resolve_pattern] collects: the empty
    name if asked, then for every [(top, entries)] of the walk the entries
    under [top[len(dirname) + 1:]]. *)
Definition globstar_names (fuel : nat) (dirname : text) (globstar_with_root : bool)
  : comp (list text) :=
  (walked <- walk fuel dirname ;;
   ret ((if globstar_with_root then [[]] else []) ++
        flat_map (fun '(top, entries) =>
          map (fun s => _join_paths [skipn (List.length dirname + 1) top; s] (sep self))
              entries) walked))%comp.

(** The body of the [try] statement of [resolve_pattern]: the candidate names
    and the pattern to match them with. *)
Definition candidates (fuel : nat) (dirname pattern : text) (globstar_with_root : bool)
  : comp (list text * text) :=
  if text_eqb pattern (str "**") then
    (names <- globstar_names fuel dirname globstar_with_root ;;
     ret (names, str "*"))%comp
  else
    match listdir self dirname with
    | Some names => ret (names, pattern)
    | None => throw OSError
    end.

(** [resolve_pattern(self, dirname, pattern, globstar_with_root)] *)
Definition resolve_pattern (fuel : nat) (dirname pattern : text) (globstar_with_root : bool)
  : comp (list found) :=
  if negb (has_magic pattern) then
    if text_eqb pattern [] then
      if isdir self dirname then ret [(pattern, [])] else ret []
    else
      if exists_ self (_join_paths [dirname; pattern] (sep self))
      then ret [(pattern, [])] else ret []
  else
    let dirname := if text_eqb dirname [] then curdir else dirname in
    match candidates fuel dirname pattern globstar_with_root with
    | None => None
    | Some (Raise OSError) => ret []
    | Some (Raise e) => throw e
    | Some (Ok (names, pattern)) =>
        (names <- (if negb (include_hidden self)
                   then (hidden <- lift (_ishidden pattern) ;;
                         if negb hidden then lift (remove_hidden names) else ret names)
                   else ret names) ;;
         filter names pattern)%comp
    end.

End Methods.

End Globber.

(** The directory part of a pattern with a wildcard is shorter than the
    pattern. *)
Lemma text_eqb_eq (a b : text) : text_eqb a b = true <-> a = b.
Proof.
  revert b; induction a as [|x a IH]; intros [|y b]; simpl; split; intro H;
    try reflexivity; try discriminate.
  - apply andb_true_iff in H as [H1 H2]. apply Ascii.eqb_eq in H1. apply IH in H2.
    now subst.
  - injection H as -> ->. rewrite Ascii.eqb_refl. simpl. now apply IH.
Qed.

Lemma text_eqb_refl (a : text) : text_eqb a a = true.
Proof. now apply text_eqb_eq. Qed.

Lemma text_eqb_neq (a b : text) : text_eqb a b = false <-> a <> b.
Proof.
  split; intro H.
  - intro E. apply text_eqb_eq in E. congruence.
  - destruct (text_eqb a b) eqn:E; [apply text_eqb_eq in E; contradiction | reflexivity].
Qed.

Lemma rfind_slash_succ_le (p : text) : rfind_slash_succ p <= List.length p.
Proof.
  induction p as [|c p IH]; simpl; [lia |].
  destruct (rfind_slash_succ p); [destruct (Ascii.eqb c slash) |]; lia.
Qed.

Lemma lstrip_length (c : ascii) (s : text) : List.length (lstrip c s) <= List.length s.
Proof.
  induction s as [|x s IH]; simpl; [lia |].
  destruct (Ascii.eqb x c); simpl; lia.
Qed.

Lemma rstrip_length (c : ascii) (s : text) : List.length (rstrip c s) <= List.length s.
Proof.
  unfold rstrip. rewrite length_rev.
  etransitivity; [apply lstrip_length | rewrite length_rev; lia].
Qed.

Lemma rstrip_snoc (c : ascii) (s : text) : rstrip c (s ++ [c]) = rstrip c s.
Proof. unfold rstrip. rewrite rev_app_distr. simpl. now rewrite Ascii.eqb_refl. Qed.

(** A text whose last slash is its last code unit ends with a slash. *)
Lemma rfind_slash_succ_full (p : text) :
  p <> [] -> rfind_slash_succ p = List.length p -> exists q, p = q ++ [slash].
Proof.
  induction p as [|c p IH]; intros Hne H; [congruence |].
  simpl in H. destruct (rfind_slash_succ p) as [|k] eqn:E.
  - destruct (Ascii.eqb c slash) eqn:Ec; [| discriminate].
    apply Ascii.eqb_eq in Ec. subst c. destruct p; [| discriminate].
    now exists [].
  - assert (Hp : p <> []) by (intro; subst; discriminate).
    destruct (IH Hp) as [q ->]; [simpl in H; lia |].
    now exists (c :: q).
Qed.

Lemma has_magic_repeat_slash (n : nat) : has_magic (repeat slash n) = false.
Proof. induction n; simpl; auto. Qed.

Lemma split_fst_shorter (p : text) :
  has_magic p = true -> List.length (fst (split p)) < List.length p.
Proof.
  intro Hm. unfold split. cbn [fst].
  pose proof (rfind_slash_succ_le p) as Hle.
  set (i := rfind_slash_succ p) in *.
  assert (Hne : p <> []) by (intro; subst; discriminate).
  destruct (Nat.eq_dec i (List.length p)) as [Hi | Hi].
  - rewrite Hi, firstn_all.
    destruct (rfind_slash_succ_full p Hne Hi) as [q Hq].
    assert (E1 : text_eqb p [] = false) by now apply text_eqb_neq.
    assert (E2 : text_eqb p (repeat slash (List.length p)) = false).
    { apply text_eqb_neq. intro E. rewrite E, has_magic_repeat_slash in Hm. discriminate. }
    rewrite E1, E2. simpl. rewrite Hq, rstrip_snoc, length_app. simpl.
    pose proof (rstrip_length slash q). lia.
  - assert (Hf : List.length (firstn i p) < List.length p).
    { rewrite length_firstn. lia. }
    destruct (_ && _); [pose proof (rstrip_length slash (firstn i p)) |]; lia.
Qed.

Module Resolver.

Import Globber.

(** The value of a test, kept together with its equation. *)
Definition inspect {A : Type} (x : A) : {y : A | x = y} := exist _ x eq_refl.

(** [_iglob(self, pathname, rootcall)]: the pairs it yields, in order. *)
Equations _iglob (self : Globber.t) (fuel : nat) (pathname : text) (rootcall : bool)
  : comp (list found) by wf (List.length pathname) lt :=
_iglob self fuel pathname rootcall with inspect (has_magic pathname) := {
  | exist _ false _ =>
      if exists_ self pathname then ret [(pathname, [])] else ret []
  | exist _ true magic =>
      let dirname := fst (split pathname) in
      let basename := snd (split pathname) in
      (dirs <- (if negb (text_eqb dirname pathname) && has_magic dirname
                then _iglob self fuel dirname false
                else ret [(dirname, [])]) ;;
       for_each (fun '(dirname, dir_groups) =>
         names <- resolve_pattern self fuel dirname basename (negb rootcall) ;;
         ret (map (fun '(name, groups) =>
                (_join_paths [dirname; name] (sep self), dir_groups ++ groups)) names))
         dirs)%comp }.
Next Obligation. now apply split_fst_shorter. Qed.

(** [iglob(self, pathname)] with [with_matches] true *)
Definition iglob_matches (self : Globber.t) (fuel : nat) (pathname : text) : comp (list found) :=
  _iglob self fuel pathname true.

(** [iglob(self, pathname)] with [with_matches] false: [imap(lambda s: s[0], result)] *)
Definition iglob (self : Globber.t) (fuel : nat) (pathname : text) : comp (list text) :=
  (result <- _iglob self fuel pathname true ;; ret (map fst result))%comp.

End Resolver.

(** ** Filesystems of the tests

    The trees that [tests/test_glob2.py] builds in a temporary directory,
    which is the working directory of the test.  A filesystem is a table from
    the paths of its directories to their listings; the table has every
    spelling of a directory that the resolver forms ([a], [./a], [a/]). *)

Definition table_listdir (tbl : list (text * list text)) (d : text) : option (list text) :=
  match find (fun e => text_eqb (fst e) d) tbl with
  | Some e => Some (snd e)
  | None => None
  end.

(** The three spellings of the directory [d] of the working directory. *)
Definition spellings (d : text) (items : list text) : list (text * list text) :=
  [(d, items); (str "./" ++ d, items); (d ++ str "/", items)].

(** The paths of a table and of the entries it lists. *)
Definition table_paths (tbl : list (text * list text)) : list text :=
  flat_map (fun e =>
    fst e :: map (fun n => join [fst e; n]) (snd e) ++
    (if text_eqb (fst e) curdir then snd e else [])) tbl.

Definition slash_separator : separator := mk_separator (str "/") eq_refl.

(** A [Globber] on the table [tbl], with the options of the test module:
    [Globber(with_matches=True, sep='/')]. *)
Definition table_globber (hidden : bool) (tbl : list (text * list text)) : Globber.t :=
  Globber.mk true hidden false None true (Some slash_separator)
    (table_listdir tbl)
    (fun d => existsb (fun e => text_eqb (fst e) d) tbl)
    (fun _ => false)
    (fun p => existsb (text_eqb p) (table_paths tbl)).

(** A rank of the paths of a table: directories get a rank that falls with
    their length, everything else the rank 0. *)
Definition table_rank (tbl : list (text * list text)) (d : text) : nat :=
  match table_listdir tbl d with
  | Some _ => S (list_max (map (fun e => List.length (fst e)) tbl)) - List.length d
  | None => 0
  end.

(** Does every entry of the table have a smaller rank than its directory,
    under the name that [walk] gives it? *)
Definition table_ranked (sep : option separator) (tbl : list (text * list text)) : bool :=
  forallb (fun e =>
    forallb (fun n =>
      table_rank tbl (_join_paths [fst e; n] sep) <? table_rank tbl (fst e)) (snd e)) tbl.

(** Is no listed name empty? *)
Definition table_named (tbl : list (text * list text)) : bool :=
  forallb (fun e => forallb (fun n => negb (text_eqb n [])) (snd e)) tbl.

(** The same [Globber] with another [listdir]. *)
Definition with_listdir (self : Globber.t) (listdir' : text -> option (list text))
  : Globber.t :=
  Globber.mk (Globber.with_matches self) (Globber.include_hidden self)
    (Globber.followlinks self) (Globber.norm_paths self) (Globber.case_sensitive self)
    (Globber.sep self) listdir' (Globber.isdir self) (Globber.islink self)
    (Globber.exists_ self).

(** [TestRecursive.setup_files] *)
Definition recursive_tree : list (text * list text) :=
  (str ".", [str "file.py"; str "file.txt"; str "a"; str "README"; str "b"]) ::
  spellings (str "a") [str "bar.py"; str "foo"] ++
  spellings (str "b") [str "py"; str "bar.py"] ++
  spellings (str "a/foo") [str "hello.py"; str "world.txt"].

(** [TestIncludeHidden.setup_files] *)
Definition hidden_tree : list (text * list text) :=
  (str ".", [str "file.py"; str "file.txt"; str "a"; str "README"; str "b"]) ::
  spellings (str "a") [str ".bar"; str ".foo"] ++
  spellings (str "b") [str "py"; str ".bar"] ++
  spellings (str "a/.foo") [str "hello.py"; str "world.txt"].

(** [TestPatterns.test] *)
Definition patterns_tree : list (text * list text) :=
  (str ".", [str "dir1"; str "dir22"]) ::
  spellings (str "dir1") [str "a-file"; str "b-file"] ++
  spellings (str "dir22") [str "a-file"; str "b-file"].

(** * Properties *)

Arguments Ascii.eqb : simpl never.

(** ** The translator never indexes an empty class *)

Lemma find_rbracket_lt (s : text) (k : nat) :
  find_rbracket s = Some k -> k < List.length s.
Proof.
  revert k; induction s as [|c s IH]; intros k H; simpl in *; [discriminate |].
  destruct (Ascii.eqb c rbracket).
  - injection H as <-. lia.
  - destruct (find_rbracket s) as [k'|]; [| discriminate].
    simpl in H. injection H as <-. specialize (IH k' eq_refl). lia.
Qed.

Lemma find_rbracket_head (c : ascii) (s : text) :
  Ascii.eqb c rbracket = false ->
  find_rbracket (c :: s) = option_map S (find_rbracket s).
Proof. intro H. simpl. now rewrite H. Qed.

(** The scan for the end of a class, by the first code units of the text. *)
Lemma class_end_cases (s : text) :
  class_end s =
  match s with
  | [] => None
  | a :: s1 =>
      if Ascii.eqb bang a then
        match s1 with
        | [] => None
        | b :: s2 =>
            if Ascii.eqb rbracket b then option_map (Nat.add 2) (find_rbracket s2)
            else option_map (Nat.add 1) (find_rbracket s1)
        end
      else if Ascii.eqb rbracket a then option_map (Nat.add 1) (find_rbracket s1)
      else option_map (Nat.add 0) (find_rbracket s)
  end.
Proof.
  unfold class_end. destruct s as [|a [|b s]]; cbn; try reflexivity.
  - rewrite !andb_true_r. destruct (Ascii.eqb bang a); cbn; [reflexivity |].
    rewrite andb_true_r. destruct (Ascii.eqb rbracket a) eqn:E; cbn; [reflexivity |].
    rewrite Ascii.eqb_sym, E. reflexivity.
  - rewrite !andb_true_r. destruct (Ascii.eqb bang a); cbn.
    + rewrite andb_true_r. destruct (Ascii.eqb rbracket b) eqn:E; cbn; [reflexivity |].
      rewrite Ascii.eqb_sym, E. reflexivity.
    + rewrite andb_true_r. destruct (Ascii.eqb rbracket a) eqn:E; cbn; [reflexivity |].
      rewrite (Ascii.eqb_sym a), E. reflexivity.
Qed.

(** The scan stops behind at least one code unit of the class, inside the
    pattern. *)
Lemma class_end_bounds (s : text) (k : nat) :
  class_end s = Some k -> 1 <= k < List.length s.
Proof.
  rewrite class_end_cases.
  destruct s as [|a s1]; [discriminate |].
  destruct (Ascii.eqb bang a).
  - destruct s1 as [|b s2]; [discriminate |].
    destruct (Ascii.eqb rbracket b).
    + destruct (find_rbracket s2) as [k'|] eqn:F; [| discriminate].
      cbn; intro H; injection H as <-. apply find_rbracket_lt in F. lia.
    + destruct (find_rbracket (b :: s2)) as [k'|] eqn:F; [| discriminate].
      cbn; intro H; injection H as <-. apply find_rbracket_lt in F. cbn in F. lia.
  - destruct (Ascii.eqb rbracket a) eqn:E.
    + destruct (find_rbracket s1) as [k'|] eqn:F; [| discriminate].
      cbn; intro H; injection H as <-. apply find_rbracket_lt in F. lia.
    + rewrite find_rbracket_head by (now rewrite Ascii.eqb_sym).
      destruct (find_rbracket s1) as [k'|] eqn:F; [| discriminate].
      cbn; intro H; injection H as <-. apply find_rbracket_lt in F. lia.
Qed.

Lemma double_backslashes_nonempty (s : text) :
  s <> [] -> double_backslashes s <> [].
Proof.
  destruct s as [|c s]; [congruence |]. intros _. simpl.
  destruct (Ascii.eqb c backslash); discriminate.
Qed.

Lemma class_stuff_nonempty (s : text) (k : nat) :
  class_end s = Some k -> double_backslashes (firstn k s) <> [].
Proof.
  intro H. apply class_end_bounds in H. apply double_backslashes_nonempty.
  destruct s; simpl in *; [lia |]. destruct k; [lia | discriminate].
Qed.

(** [translate] always returns: the index [stuff[0]] is inside [stuff]. *)
Lemma translate_loop_returns (s res : text) :
  exists r, translate_loop s res = Ok r.
Proof.
  remember (List.length s) as n eqn:Hn.
  revert s res Hn. induction n as [n IH] using lt_wf_ind. intros s res Hn.
  destruct s as [|c s].
  - rewrite translate_loop_equation_1. eauto.
  - rewrite translate_loop_equation_2.
    assert (Hs : forall res', exists r, translate_loop s res' = Ok r).
    { intro res'. apply (IH (List.length s)); [subst; simpl; lia | reflexivity]. }
    destruct (Ascii.eqb c star); [apply Hs |].
    destruct (Ascii.eqb c qmark); [apply Hs |].
    destruct (Ascii.eqb c lbracket); [| apply Hs].
    destruct (class_end s) as [k|] eqn:Ek; [| apply Hs].
    pose proof (class_stuff_nonempty s k Ek) as Hne.
    destruct (double_backslashes (firstn k s)) as [|c0 tl]; [congruence |].
    cbv zeta.
    apply (IH (List.length (skipn (S k) s))); [| reflexivity].
    subst n. rewrite length_skipn. simpl. lia.
Qed.

Lemma translate_returns (pat : text) : exists r, translate pat = Ok r.
Proof.
  unfold translate. destruct (translate_loop_returns pat []) as [r ->]. simpl. eauto.
Qed.

(** ** Compiling what the translator writes *)

Lemma steps_app (a b : text) (m : comp pstate) :
  steps (a ++ b) m = steps b (steps a m).
Proof. unfold steps. apply fold_left_app. Qed.

Lemma steps_cons (c : ascii) (s : text) (st : pstate) :
  steps (c :: s) (ret st) = steps s (step st c).
Proof. reflexivity. Qed.

Lemma steps_none (s : text) : steps s None = None.
Proof. induction s; simpl; auto. Qed.

Lemma steps_raise (s : text) (e : exn) : steps s (throw e) = throw e.
Proof. induction s; simpl; auto. Qed.

(** The parser at the top level, with the nodes [ns] written. *)
Definition at_top (ns : list node) (o ml da : bool) : pstate :=
  mk_pstate PTop ns o ml da.

Lemma in_re_special (c : ascii) :
  existsb (Ascii.eqb c) re_special = true -> In c re_special.
Proof.
  intro H. apply existsb_exists in H as [x [Hx E]].
  apply Ascii.eqb_eq in E. now subst.
Qed.

Lemma existsb_eqb_false (c : ascii) (l : text) (x : ascii) :
  existsb (Ascii.eqb c) l = false -> In x l -> Ascii.eqb c x = false.
Proof.
  intros H Hin. destruct (Ascii.eqb c x) eqn:E; [| reflexivity].
  rewrite <- H. symmetry. apply existsb_exists. eauto.
Qed.

(** An escaped code unit is compiled to that literal code unit. *)
Lemma steps_escape (c : ascii) (ns : list node) (o ml da : bool) :
  steps (escape c) (ret (at_top ns o ml da)) = ret (at_top (NChar (ALit c) :: ns) o ml da).
Proof.
  unfold escape. destruct (existsb (Ascii.eqb c) re_special) eqn:E.
  - apply in_re_special in E. unfold re_special in E. simpl in E.
    repeat (destruct E as [<- | E]; [reflexivity |]). contradiction.
  - assert (F : forall x, In x re_special -> Ascii.eqb c x = false)
      by (intros x; now apply existsb_eqb_false).
    rewrite steps_cons. cbn [steps fold_left]. unfold step, at_top. cbn [p_mode].
    unfold step_top.
    rewrite (F backslash), (F lparen), (F rparen), (F lbracket), (F dot), (F star)
      by (vm_compute; tauto).
    replace (existsb (Ascii.eqb c) (str "+?{|^$")) with false; [reflexivity |].
    symmetry. apply not_true_is_false. intro H.
    apply existsb_exists in H as [x [Hx Ex]].
    rewrite F in Ex; [discriminate |].
    simpl in Hx. vm_compute. tauto.
Qed.

Lemma steps_literals (s : text) (ns : list node) (o ml da : bool) :
  steps (flat_map escape s) (ret (at_top ns o ml da)) =
  ret (at_top (rev (map (fun c => NChar (ALit c)) s) ++ ns) o ml da).
Proof.
  revert ns; induction s as [|c s IH]; intro ns; [reflexivity |].
  cbn [flat_map map rev]. rewrite steps_app, steps_escape, IH, <- app_assoc. reflexivity.
Qed.

Lemma steps_star (ns : list node) (ml da : bool) :
  steps (str "(.*)") (ret (at_top ns false ml da)) =
  ret (at_top (NClose :: NStar AAny :: NOpen :: ns) false ml da).
Proof. reflexivity. Qed.

Lemma steps_qmark (ns : list node) (ml da : bool) :
  steps (str "(.)") (ret (at_top ns false ml da)) =
  ret (at_top (NClose :: NChar AAny :: NOpen :: ns) false ml da).
Proof. reflexivity. Qed.

Lemma steps_lbracket (ns : list node) (o ml da : bool) :
  steps (str "\[") (ret (at_top ns o ml da)) =
  ret (at_top (NChar (ALit lbracket) :: ns) o ml da).
Proof. reflexivity. Qed.

Lemma steps_end (ns : list node) (ml da : bool) :
  steps (str "\Z(?ms)") (ret (at_top ns false ml da)) = ret (at_top (NEndZ :: ns) false true true).
Proof. reflexivity. Qed.
(** *** Character classes *)

Definition no_rbracket (s : text) : Prop := Forall (fun c => Ascii.eqb c rbracket = false) s.

Lemma find_rbracket_firstn (s : text) (m : nat) :
  find_rbracket s = Some m -> no_rbracket (firstn m s).
Proof.
  revert m; induction s as [|c s IH]; intros m H; [discriminate |].
  simpl in H. destruct (Ascii.eqb c rbracket) eqn:E.
  - injection H as <-. constructor.
  - destruct (find_rbracket s) as [m'|]; [| discriminate].
    simpl in H. injection H as <-. simpl. constructor; auto. now apply IH.
Qed.

(** The parser inside a set that the next closing bracket ends. *)
Definition set_ready (m : pmode) : Prop :=
  match m with
  | PSet _ items => items <> []
  | PSetLit _ _ _ | PSetDash _ _ _ => True
  | _ => False
  end.

Definition in_set (m : pmode) (ns : list node) (ml da : bool) : pstate :=
  mk_pstate m ns true ml da.

Lemma snoc_nonempty {A} (l : list A) (x : A) : l ++ [x] <> [].
Proof. destruct l; discriminate. Qed.

(** One code unit of a class that is not the closing bracket, written with
    its backslash doubled. *)
Lemma steps_class_unit (c : ascii) (m : pmode) (ns : list node) (ml da : bool) :
  Ascii.eqb c rbracket = false -> set_ready m ->
  steps (double_backslashes [c]) (ret (in_set m ns ml da)) = throw ReError \/
  exists m', set_ready m' /\
    steps (double_backslashes [c]) (ret (in_set m ns ml da)) = ret (in_set m' ns ml da).
Proof.
  intros Hc Hm. unfold double_backslashes. cbn [flat_map]. rewrite app_nil_r.
  destruct (Ascii.eqb c backslash) eqn:Eb.
  - apply Ascii.eqb_eq in Eb. subst c.
    destruct m as [| | | | | neg items | | neg items c1 | neg items c1 |]; try contradiction.
    + right. exists (PSetLit neg items backslash). split; [exact I |].
      cbn in Hm. destruct items; [congruence | reflexivity].
    + right. exists (PSetLit neg (items ++ [CLit c1]) backslash). split; [exact I |].
      rewrite steps_cons. unfold step, in_set. cbn [p_mode].
      replace (Ascii.eqb backslash dash) with false by reflexivity.
      unfold step_set. destruct (items ++ [CLit c1]) eqn:E; [now destruct items |].
      reflexivity.
    + change (steps [backslash; backslash] (ret (in_set (PSetDash neg items c1) ns ml da)))
        with (step_range (in_set (PSetDashEsc neg items c1) ns ml da) neg items c1 backslash).
      unfold step_range. destruct (_ <? _); [now left |].
      right. eexists. split; [| reflexivity]. apply snoc_nonempty.
  - rewrite steps_cons. cbn [steps fold_left].
    destruct m as [| | | | | neg items | | neg items c1 | neg items c1 |]; try contradiction;
      unfold step, in_set; cbn [p_mode].
    + right. exists (PSetLit neg items c). split; [exact I |].
      unfold step_set. rewrite Hc, Eb. reflexivity.
    + destruct (Ascii.eqb c dash).
      * right. exists (PSetDash neg items c1). now split.
      * right. exists (PSetLit neg (items ++ [CLit c1]) c). split; [exact I |].
        unfold step_set. rewrite Hc, Eb. reflexivity.
    + rewrite Hc, Eb. unfold step_range. destruct (_ <? _); [now left |].
      right. eexists. split; [| reflexivity]. apply snoc_nonempty.
Qed.

Lemma double_backslashes_cons (c : ascii) (s : text) :
  double_backslashes (c :: s) = double_backslashes [c] ++ double_backslashes s.
Proof. unfold double_backslashes. cbn [flat_map]. now rewrite app_nil_r. Qed.

Lemma steps_class_body (body : text) (m : pmode) (ns : list node) (ml da : bool) :
  no_rbracket body -> set_ready m ->
  steps (double_backslashes body) (ret (in_set m ns ml da)) = throw ReError \/
  exists m', set_ready m' /\
    steps (double_backslashes body) (ret (in_set m ns ml da)) = ret (in_set m' ns ml da).
Proof.
  intro Hb. revert m. induction Hb as [|c body Hc Hb IH]; intros m Hm.
  - right. exists m. now split.
  - rewrite double_backslashes_cons, steps_app.
    destruct (steps_class_unit c m ns ml da Hc Hm) as [-> | [m' [Hm' ->]]].
    + left. apply steps_raise.
    + now apply IH.
Qed.

(** The closing bracket and parenthesis of a class. *)
Lemma steps_class_close (m : pmode) (ns : list node) (ml da : bool) :
  set_ready m ->
  exists neg items,
    steps (str "])") (ret (in_set m ns ml da)) =
    ret (at_top (NClose :: NChar (ASet neg items) :: ns) false ml da).
Proof.
  intro Hm.
  destruct m as [| | | | | neg items | | neg items c1 | neg items c1 |]; try contradiction.
  - exists neg, items. cbn in Hm. destruct items; [congruence | reflexivity].
  - exists neg, (items ++ [CLit c1]).
    change (str "])") with [rbracket; rparen].
    rewrite steps_cons. unfold step, in_set. cbn [p_mode].
    replace (Ascii.eqb rbracket dash) with false by reflexivity.
    unfold step_set. destruct (items ++ [CLit c1]) eqn:E; [now destruct items |].
    reflexivity.
  - exists neg, (items ++ [CLit c1; CLit dash]). reflexivity.
Qed.

(** What [translate] writes between the brackets of a class. *)
Definition class_text (c0 : ascii) (tl : text) : text :=
  if Ascii.eqb c0 bang then caret :: tl
  else if Ascii.eqb c0 caret then backslash :: c0 :: tl
  else c0 :: tl.

Lemma double_backslashes_other (c : ascii) (s : text) :
  Ascii.eqb c backslash = false -> double_backslashes (c :: s) = c :: double_backslashes s.
Proof. intro H. unfold double_backslashes. cbn [flat_map]. now rewrite H. Qed.

Lemma double_backslashes_backslash (s : text) :
  double_backslashes (backslash :: s) = backslash :: backslash :: double_backslashes s.
Proof. reflexivity. Qed.

(** The first item of a set. *)
Lemma steps_first_item (c : ascii) (neg : bool) (ns : list node) (ml da : bool) :
  Ascii.eqb c backslash = false ->
  step (in_set (PSet neg []) ns ml da) c = ret (in_set (PSetLit neg [] c) ns ml da).
Proof.
  intro H. unfold step, in_set. cbn [p_mode]. unfold step_set.
  rewrite H, andb_false_r. reflexivity.
Qed.

(** The text of a class takes the parser from the opening bracket into a
    set that the closing bracket ends, or is rejected for a bad range. *)
Lemma steps_class_text (s : text) (k : nat) (c0 : ascii) (tl : text)
  (ns : list node) (ml da : bool) :
  class_end s = Some k ->
  double_backslashes (firstn k s) = c0 :: tl ->
  steps (class_text c0 tl) (ret (in_set PSetNeg ns ml da)) = throw ReError \/
  exists m, set_ready m /\
    steps (class_text c0 tl) (ret (in_set PSetNeg ns ml da)) = ret (in_set m ns ml da).
Proof.
  rewrite class_end_cases.
  destruct s as [|a s1]; [discriminate |].
  destruct (Ascii.eqb bang a) eqn:Ea.
  - (* a negated class *)
    apply Ascii.eqb_eq in Ea. subst a.
    assert (Hneg : forall body : text,
      body <> [] -> no_rbracket (tail body) ->
      double_backslashes (bang :: body) = c0 :: tl ->
      steps (class_text c0 tl) (ret (in_set PSetNeg ns ml da)) = throw ReError \/
      exists m, set_ready m /\
        steps (class_text c0 tl) (ret (in_set PSetNeg ns ml da)) = ret (in_set m ns ml da)).
    { intros [|b body] Hne Hno; [congruence |]. cbn [tail] in Hno.
      rewrite double_backslashes_other by reflexivity.
      intro H; injection H as <- <-.
      unfold class_text. replace (Ascii.eqb bang bang) with true by reflexivity.
      rewrite steps_cons.
      change (step (in_set PSetNeg ns ml da) caret) with (ret (in_set (PSet true []) ns ml da)).
      destruct (Ascii.eqb b backslash) eqn:Eb.
      - apply Ascii.eqb_eq in Eb. subst b.
        cbn [app]. rewrite steps_cons.
        change (step (in_set (PSet true []) ns ml da) backslash)
          with (ret (in_set (PSetEsc true []) ns ml da)).
        rewrite steps_cons.
        change (step (in_set (PSetEsc true []) ns ml da) backslash)
          with (ret (in_set (PSetLit true [] backslash) ns ml da)).
        now apply steps_class_body.
      - cbn [app]. rewrite steps_cons, steps_first_item by assumption.
        now apply steps_class_body. }
    destruct s1 as [|b s2]; [discriminate |].
    destruct (Ascii.eqb rbracket b) eqn:Eb.
    + apply Ascii.eqb_eq in Eb. subst b.
      destruct (find_rbracket s2) as [m|] eqn:F; [| discriminate].
      cbn [option_map Nat.add]. intro H; injection H as <-.
      cbn [firstn]. apply Hneg; [discriminate |].
      cbn [tail]. now apply find_rbracket_firstn.
    + destruct (find_rbracket (b :: s2)) as [m|] eqn:F; [| discriminate].
      cbn [option_map Nat.add]. intro H; injection H as <-.
      pose proof (find_rbracket_firstn _ _ F) as Hno.
      destruct m as [|m'].
      { cbn in F. rewrite Ascii.eqb_sym, Eb in F. destruct (find_rbracket s2); discriminate. }
      cbn [firstn] in *. apply Hneg; [discriminate |].
      cbn [tail]. now inversion Hno.
  - destruct (Ascii.eqb rbracket a) eqn:Eb.
    + (* a class that starts with the closing bracket *)
      apply Ascii.eqb_eq in Eb. subst a.
      destruct (find_rbracket s1) as [m|] eqn:F; [| discriminate].
      cbn [option_map Nat.add]. intro H; injection H as <-.
      cbn [firstn]. rewrite double_backslashes_other by reflexivity.
      intro H; injection H as <- <-.
      unfold class_text.
      replace (Ascii.eqb rbracket bang) with false by reflexivity.
      replace (Ascii.eqb rbracket caret) with false by reflexivity.
      rewrite steps_cons.
      change (step (in_set PSetNeg ns ml da) rbracket)
        with (ret (in_set (PSetLit false [] rbracket) ns ml da)).
      apply steps_class_body; [now apply find_rbracket_firstn | exact I].
    + destruct (find_rbracket (a :: s1)) as [m|] eqn:F; [| discriminate].
      cbn [option_map Nat.add]. intro H; injection H as <-.
      pose proof (find_rbracket_firstn _ _ F) as Hno.
      destruct m as [|m'].
      { cbn in F. rewrite Ascii.eqb_sym, Eb in F. destruct (find_rbracket s1); discriminate. }
      cbn [firstn] in *.
      inversion Hno as [|? ? Ha Hno']; subst.
      destruct (Ascii.eqb a backslash) eqn:Ebs.
      * apply Ascii.eqb_eq in Ebs. subst a.
        rewrite double_backslashes_backslash. intro H; injection H as <- <-.
        unfold class_text.
        replace (Ascii.eqb backslash bang) with false by reflexivity.
        replace (Ascii.eqb backslash caret) with false by reflexivity.
        rewrite !steps_cons.
        change (step (in_set PSetNeg ns ml da) backslash)
          with (ret (in_set (PSetEsc false []) ns ml da)).
        rewrite steps_cons.
        change (step (in_set (PSetEsc false []) ns ml da) backslash)
          with (ret (in_set (PSetLit false [] backslash) ns ml da)).
        now apply steps_class_body.
      * rewrite double_backslashes_other by assumption.
        intro H; injection H as <- <-.
        unfold class_text. rewrite (Ascii.eqb_sym a bang), Ea.
        destruct (Ascii.eqb a caret) eqn:Ec.
        -- apply Ascii.eqb_eq in Ec. subst a.
           rewrite !steps_cons.
           change (step (in_set PSetNeg ns ml da) backslash)
             with (ret (in_set (PSetEsc false []) ns ml da)).
           rewrite steps_cons.
           change (step (in_set (PSetEsc false []) ns ml da) caret)
             with (ret (in_set (PSetLit false [] caret) ns ml da)).
           now apply steps_class_body.
        -- rewrite steps_cons.
           replace (step (in_set PSetNeg ns ml da) a)
             with (ret (in_set (PSetLit false [] a) ns ml da)).
           ++ now apply steps_class_body.
           ++ unfold step, in_set. cbn [p_mode].
              rewrite Ec. unfold step_set. rewrite Ha, Ebs. reflexivity.
Qed.
(** *** Every translated pattern is in the fragment *)

Lemma translate_loop_compiles (s res r : text) :
  translate_loop s res = Ok r ->
  exists body, r = res ++ body /\
    forall ns ml da,
      steps body (ret (at_top ns false ml da)) = throw ReError \/
      exists ns', steps body (ret (at_top ns false ml da)) = ret (at_top ns' false ml da).
Proof.
  remember (List.length s) as n eqn:Hn.
  revert s res r Hn. induction n as [n IH] using lt_wf_ind. intros s res r Hn.
  destruct s as [|c s].
  - rewrite translate_loop_equation_1. intro H; injection H as <-.
    exists []. split; [now rewrite app_nil_r |]. intros. right. now exists ns.
  - rewrite translate_loop_equation_2.
    assert (Hs : forall piece,
      (forall ns ml da, exists ns',
          steps piece (ret (at_top ns false ml da)) = ret (at_top ns' false ml da)) ->
      translate_loop s (res ++ piece) = Ok r ->
      exists body, r = res ++ body /\
        forall ns ml da,
          steps body (ret (at_top ns false ml da)) = throw ReError \/
          exists ns', steps body (ret (at_top ns false ml da)) = ret (at_top ns' false ml da)).
    { intros piece Hp H.
      assert (Hlt : List.length s < n) by (subst; simpl; lia).
      destruct (IH (List.length s) Hlt s (res ++ piece) r eq_refl H) as [body [-> Hbody]].
      exists (piece ++ body). split; [now rewrite app_assoc |].
      intros ns ml da. rewrite steps_app. destruct (Hp ns ml da) as [ns' ->]. apply Hbody. }
    destruct (Ascii.eqb c star).
    { apply Hs. intros. eexists. apply steps_star. }
    destruct (Ascii.eqb c qmark).
    { apply Hs. intros. eexists. apply steps_qmark. }
    destruct (Ascii.eqb c lbracket).
    2: { apply Hs. intros. eexists. apply steps_escape. }
    destruct (class_end s) as [k|] eqn:Ek.
    2: { apply Hs. intros. eexists. apply steps_lbracket. }
    destruct (double_backslashes (firstn k s)) as [|c0 tl] eqn:Ed; [discriminate |].
    cbv zeta. fold (class_text c0 tl). intro H.
    assert (Hlt : List.length (skipn (S k) s) < n).
    { subst n. rewrite length_skipn. simpl. lia. }
    destruct (IH _ Hlt (skipn (S k) s) _ r eq_refl H) as [body [-> Hbody]].
    exists ((str "([" ++ class_text c0 tl ++ str "])") ++ body).
    split; [now rewrite !app_assoc |].
    intros ns ml da. rewrite !steps_app.
    change (steps (str "([") (ret (at_top ns false ml da)))
      with (ret (in_set PSetNeg (NOpen :: ns) ml da)).
    destruct (steps_class_text s k c0 tl (NOpen :: ns) ml da Ek Ed) as [-> | [m [Hm ->]]].
    + left. now rewrite !steps_raise.
    + destruct (steps_class_close m (NOpen :: ns) ml da Hm) as [neg [items ->]].
      apply Hbody.
Qed.

(** [re.compile] accepts what [translate] writes, or rejects it with
    [re.error]; the compiled pattern has the flag [s]. *)
Lemma translate_in_fragment (pat r : text) (ignorecase : bool) :
  translate pat = Ok r ->
  re_compile r ignorecase = throw ReError \/
  exists ns, re_compile r ignorecase = ret (mk_regex ns true ignorecase).
Proof.
  unfold translate. destruct (translate_loop pat []) as [r0|e] eqn:E; [| discriminate].
  cbn [bind]. intro H; injection H as <-.
  apply translate_loop_compiles in E as [body [-> Hbody]]. cbn [app].
  unfold re_compile. rewrite steps_app.
  destruct (Hbody [] false false) as [H | [ns' H]];
    change p_init with (at_top [] false false false); rewrite H.
  - left. now rewrite steps_raise.
  - right. rewrite steps_end. eexists. reflexivity.
Qed.

(** [_compile_pattern] returns a compiled pattern or raises [re.error]. *)
Lemma _compile_pattern_answers (pat : text) (case_sensitive : bool) :
  _compile_pattern pat case_sensitive = throw ReError \/
  exists ns, _compile_pattern pat case_sensitive = ret (mk_regex ns true (negb case_sensitive)).
Proof.
  unfold _compile_pattern. destruct (translate_returns pat) as [r Hr]. rewrite Hr.
  cbn [lift cbind]. now apply translate_in_fragment with (pat := pat).
Qed.
(** ** Literal text in the translator and in the matcher *)

Lemma is_magic_false (c : ascii) :
  is_magic c = false ->
  Ascii.eqb c star = false /\ Ascii.eqb c qmark = false /\ Ascii.eqb c lbracket = false.
Proof.
  unfold is_magic. intro H. apply orb_false_iff in H as [H H3].
  apply orb_false_iff in H as [H1 H2]. auto.
Qed.

Lemma has_magic_app (a b : text) : has_magic (a ++ b) = has_magic a || has_magic b.
Proof. apply existsb_app. Qed.

(** A prefix without wildcard is escaped code unit by code unit. *)
Lemma translate_loop_literal (pre s res : text) :
  has_magic pre = false ->
  translate_loop (pre ++ s) res = translate_loop s (res ++ flat_map escape pre).
Proof.
  revert res. induction pre as [|c pre IH]; intros res H.
  - cbn. now rewrite app_nil_r.
  - cbn in H. apply orb_false_iff in H as [Hc Hpre].
    apply is_magic_false in Hc as [H1 [H2 H3]].
    cbn [app]. rewrite translate_loop_equation_2, H1, H2, H3.
    rewrite IH by assumption. cbn [flat_map]. now rewrite <- app_assoc.
Qed.

(** The code of a literal text. *)
Definition literals (s : text) : list node := map (fun c => NChar (ALit c)) s.

Definition feeds (s : text) (m : mstate) : mstate :=
  fold_left (fun m c => feed c m) s m.

Lemma feeds_closed (s : text) (g : list text) :
  feeds s (mk_mstate None g) = mk_mstate None g.
Proof. induction s as [|c s IH]; [reflexivity | exact IH]. Qed.

Lemma feeds_open (s acc : text) (g : list text) :
  feeds s (mk_mstate (Some acc) g) = mk_mstate (Some (acc ++ s)) g.
Proof.
  revert acc; induction s as [|c s IH]; intro acc; cbn.
  - now rewrite app_nil_r.
  - unfold feeds in IH. unfold feed at 2. cbn. rewrite IH, <- app_assoc. reflexivity.
Qed.

(** Case-sensitive literal code matches exactly its text. *)
Lemma run_literals (da : bool) (p : text) (r : list node) (s : text) (m : mstate) :
  run false da (literals p ++ r) s m =
  if startswith p s then run false da r (skipn (List.length p) s) (feeds p m) else None.
Proof.
  revert s m. induction p as [|c p IH]; intros s m; [reflexivity |].
  cbn [literals map app run]. destruct s as [|x s]; [reflexivity |].
  cbn [accepts startswith List.length skipn]. destruct (Ascii.eqb c x) eqn:E; [| reflexivity].
  apply Ascii.eqb_eq in E. subst x. cbn [andb]. fold (literals p). rewrite IH. reflexivity.
Qed.

Lemma startswith_app (p s : text) : startswith p (p ++ s) = true.
Proof. induction p as [|c p IH]; cbn; [reflexivity |]. now rewrite Ascii.eqb_refl. Qed.

Lemma startswith_split (p s : text) :
  startswith p s = true -> s = p ++ skipn (List.length p) s.
Proof.
  revert s; induction p as [|c p IH]; intros s H; [reflexivity |].
  destruct s as [|x s]; [discriminate |]. cbn in H.
  apply andb_true_iff in H as [E H]. apply Ascii.eqb_eq in E. subst x.
  cbn. f_equal. now apply IH.
Qed.

Lemma skipn_length_app {A} (p s : list A) : skipn (List.length p) (p ++ s) = s.
Proof. induction p; cbn; auto. Qed.

(** The end of a case-sensitive pattern: a literal suffix and [\Z]. *)
Lemma run_suffix (da : bool) (suf u : text) (m : mstate) :
  run false da (literals suf ++ [NEndZ]) u m =
  if text_eqb suf u then Some (feeds suf m) else None.
Proof.
  rewrite run_literals. destruct (startswith suf u) eqn:E.
  - apply startswith_split in E. cbn [run].
    destruct (skipn (List.length suf) u) as [|x t] eqn:Es.
    + rewrite app_nil_r in E. subst u. now rewrite text_eqb_refl.
    + destruct (text_eqb suf u) eqn:Eq; [| reflexivity].
      apply text_eqb_eq in Eq. rewrite <- Eq in E.
      apply (f_equal (@List.length ascii)) in E. rewrite length_app in E. cbn in E. lia.
  - destruct (text_eqb suf u) eqn:Eq; [| reflexivity].
    apply text_eqb_eq in Eq. subst u.
    rewrite <- (app_nil_r suf) in E at 2. now rewrite startswith_app in E.
Qed.

Lemma run_star_nil (ic da : bool) (a : atom) (r : list node) (m : mstate) :
  run ic da (NStar a :: r) [] m = run ic da r [] m.
Proof. reflexivity. Qed.

Lemma run_star_cons (ic da : bool) (a : atom) (r : list node) (c : ascii) (s : text)
  (m : mstate) :
  run ic da (NStar a :: r) (c :: s) m =
  if accepts ic da a c
  then match run ic da (NStar a :: r) s (feed c m) with
       | Some m' => Some m'
       | None => run ic da r (c :: s) m
       end
  else run ic da r (c :: s) m.
Proof. reflexivity. Qed.





(** ** Patterns without wildcard and patterns with one star *)


Lemma translate_one_star (pre suf : text) :
  has_magic pre = false -> has_magic suf = false ->
  translate (pre ++ star :: suf) =
  Ok (flat_map escape pre ++ str "(.*)" ++ flat_map escape suf ++ str "\Z(?ms)").
Proof.
  intros Hp Hs. unfold translate.
  rewrite translate_loop_literal by assumption.
  rewrite translate_loop_equation_2. replace (Ascii.eqb star star) with true by reflexivity.
  rewrite <- (app_nil_r suf) at 1. rewrite translate_loop_literal by assumption.
  rewrite translate_loop_equation_1. cbn [bind app]. now rewrite <- !app_assoc.
Qed.

Lemma rev_literals (s : text) : rev (rev (literals s)) = literals s.
Proof. apply rev_involutive. Qed.


Lemma _compile_pattern_one_star (pre suf : text) (cs : bool) :
  has_magic pre = false -> has_magic suf = false ->
  _compile_pattern (pre ++ star :: suf) cs =
  ret (mk_regex (literals pre ++ NOpen :: NStar AAny :: NClose :: literals suf ++ [NEndZ])
         true (negb cs)).
Proof.
  intros Hp Hs. unfold _compile_pattern. rewrite translate_one_star by assumption.
  cbn [lift cbind]. unfold re_compile. rewrite !steps_app.
  change p_init with (at_top [] false false false).
  rewrite steps_literals, steps_star, steps_literals, steps_end.
  cbn [cbind ret at_top p_mode p_open p_nodes p_dotall]. f_equal. f_equal. f_equal.
  fold (literals pre) (literals suf).
  cbn [rev]. rewrite app_nil_r, !rev_app_distr. cbn [rev app].
  rewrite !rev_involutive, <- !app_assoc. cbn [app]. reflexivity.
Qed.

(** What a case-sensitive pattern without wildcard matches: its own text,
    with no group. *)
Lemma re_match_literal (lit N : text) :
  re_match (mk_regex (literals lit ++ [NEndZ]) true false) N =
  if text_eqb lit N then Some [] else None.
Proof.
  unfold re_match. cbn [re_ignorecase re_dotall re_nodes].
  rewrite run_suffix, feeds_closed. now destruct (text_eqb lit N).
Qed.





(** ** Loops over lists *)

Lemma for_each_app {A B} (f : A -> comp (list B)) (xs ys : list A) :
  for_each f (xs ++ ys) =
  (a <- for_each f xs ;; b <- for_each f ys ;; ret (a ++ b))%comp.
Proof.
  induction xs as [|x xs IH]; cbn [app for_each].
  - unfold cbind, ret. destruct (for_each f ys) as [[b|e]|]; reflexivity.
  - rewrite IH. unfold cbind, ret.
    destruct (f x) as [[a|e]|]; [| reflexivity | reflexivity].
    destruct (for_each f xs) as [[a'|e]|]; [| reflexivity | reflexivity].
    destruct (for_each f ys) as [[b|e]|]; [| reflexivity | reflexivity].
    now rewrite app_assoc.
Qed.

Lemma for_each_mono {A B} (f g : A -> comp (list B)) (xs : list A) (r : result (list B)) :
  (forall x r', In x xs -> f x = Some r' -> g x = Some r') ->
  for_each f xs = Some r -> for_each g xs = Some r.
Proof.
  revert r. induction xs as [|x xs IH]; intros r H; [auto |].
  cbn [for_each]. unfold cbind.
  destruct (f x) as [rx|] eqn:Ex; [| discriminate].
  rewrite (H x rx (or_introl eq_refl) Ex).
  destruct rx as [ys|e]; [| auto].
  destruct (for_each f xs) as [rs|] eqn:Es; [| discriminate].
  rewrite (IH rs); [auto | | reflexivity].
  intros y r' Hy. apply H. now right.
Qed.

Lemma for_each_in {A B} (f : A -> comp (list B)) (xs : list A) (r : list B) (y : B) :
  for_each f xs = ret r -> In y r ->
  exists x ys, In x xs /\ f x = ret ys /\ In y ys.
Proof.
  revert r. induction xs as [|x xs IH]; intros r H Hy.
  - injection H as <-. contradiction.
  - cbn [for_each] in H. unfold cbind, ret in H.
    destruct (f x) as [[ys|e]|] eqn:Ex; try discriminate.
    destruct (for_each f xs) as [[zs|e]|] eqn:Es; try discriminate.
    injection H as <-. apply in_app_or in Hy as [Hy | Hy].
    + exists x, ys. repeat split; auto. now left.
    + destruct (IH zs eq_refl Hy) as [x' [ys' [Hx [Hf Hin]]]].
      exists x', ys'. repeat split; auto. now right.
Qed.

Lemma for_each_incl {A B} (f : A -> comp (list B)) (xs : list A) (r : list B) (x : A) :
  for_each f xs = ret r -> In x xs ->
  exists ys, f x = ret ys /\ incl ys r.
Proof.
  revert r. induction xs as [|x' xs IH]; intros r H Hx; [contradiction |].
  cbn [for_each] in H. unfold cbind, ret in H.
  destruct (f x') as [[ys|e]|] eqn:Ex; try discriminate.
  destruct (for_each f xs) as [[zs|e]|] eqn:Es; try discriminate.
  injection H as <-. destruct Hx as [-> | Hx].
  - exists ys. split; [assumption | apply incl_appl, incl_refl].
  - destruct (IH zs eq_refl Hx) as [ys' [Hf Hi]].
    exists ys'. split; [assumption | now apply incl_appr].
Qed.

(** A loop raises what one of its steps raises. *)
Lemma for_each_raise {A B} (f : A -> comp (list B)) (xs : list A) (e : exn) :
  for_each f xs = throw e -> exists x, In x xs /\ f x = throw e.
Proof.
  induction xs as [|x xs IH]; intro H; [discriminate |].
  cbn [for_each] in H. unfold cbind, ret, throw in *.
  destruct (f x) as [[ys|e']|] eqn:Ex; try discriminate.
  - destruct (for_each f xs) as [[zs|e']|] eqn:Es; try discriminate.
    injection H as ->. destruct (IH eq_refl) as [x' [Hx Hf]].
    exists x'. split; [now right | assumption].
  - injection H as ->. exists x. split; [now left | assumption].
Qed.

(** A loop whose steps all answer with enough fuel answers with enough
    fuel. *)
Lemma for_each_fuel {A B} (f : nat -> A -> comp (list B)) (xs : list A) :
  (forall x n m r, n <= m -> f n x = Some r -> f m x = Some r) ->
  (forall x, In x xs -> exists n r, f n x = Some r) ->
  exists n r, for_each (f n) xs = Some r.
Proof.
  intros Hmono. induction xs as [|x xs IH]; intro H.
  - exists 0, (Ok []). reflexivity.
  - destruct (H x (or_introl eq_refl)) as [n1 [r1 H1]].
    destruct IH as [n2 [r2 H2]]; [intros y Hy; apply H; now right |].
    exists (Nat.max n1 n2).
    assert (E1 : f (Nat.max n1 n2) x = Some r1) by (apply (Hmono x n1); [lia | assumption]).
    assert (E2 : for_each (f (Nat.max n1 n2)) xs = Some r2).
    { apply for_each_mono with (f := f n2); [| assumption].
      intros y r' _. apply Hmono. lia. }
    cbn [for_each]. rewrite E1, E2. unfold cbind, ret.
    destruct r1 as [ys|e]; [| eauto]. destruct r2 as [zs|e]; eauto.
Qed.

(** ** The walk *)

Section Walk.

Variable self : Globber.t.

(** Does [walk] go from [top] into the entry [name]? *)
Definition enters (top name : text) : bool :=
  Globber.followlinks self ||
  negb (Globber.islink self (_join_paths [top; name] (Globber.sep self))).

Definition child (top name : text) : text := _join_paths [top; name] (Globber.sep self).

Lemma walk_step (fuel : nat) (top : text) :
  Globber.walk self (S fuel) top =
  match Globber.listdir self top with
  | None => ret []
  | Some items =>
      (below <- for_each (fun name =>
                  if enters top name then Globber.walk self fuel (child top name) else ret [])
                items ;;
       ret ((top, items) :: below))%comp
  end.
Proof. reflexivity. Qed.

Lemma walk_mono (fuel fuel' : nat) (top : text) (r : result (list (text * list text))) :
  fuel <= fuel' -> Globber.walk self fuel top = Some r -> Globber.walk self fuel' top = Some r.
Proof.
  revert fuel' top r. induction fuel as [|fuel IH]; intros fuel' top r Hle H; [discriminate |].
  destruct fuel' as [|fuel']; [lia |]. rewrite walk_step in *.
  destruct (Globber.listdir self top) as [items|]; [| assumption].
  unfold cbind in *.
  match type of H with
  | match ?X with _ => _ end = _ => destruct X as [rs|] eqn:E; [| discriminate]
  end.
  erewrite for_each_mono; [exact H | | exact E].
  intros x r' _. cbv beta. destruct (enters top x); [| auto].
  apply IH. lia.
Qed.

(** The walk catches the error of every listing. *)
Lemma walk_no_raise (fuel : nat) (top : text) (e : exn) :
  Globber.walk self fuel top <> throw e.
Proof.
  revert top e. induction fuel as [|fuel IH]; intros top e; [discriminate |].
  rewrite walk_step. destruct (Globber.listdir self top) as [items|]; [| discriminate].
  unfold cbind, ret, throw.
  match goal with
  | |- match ?X with _ => _ end <> _ => destruct X as [[rs|e']|] eqn:E; try discriminate
  end.
  apply for_each_raise in E as [x [_ Hx]]. cbv beta in Hx.
  destruct (enters top x); [| discriminate]. now apply IH in Hx.
Qed.

(** Every pair that the walk yields is a directory with its listing. *)
Lemma walk_listed (fuel : nat) (top : text) (w : list (text * list text))
  (t : text) (entries : list text) :
  Globber.walk self fuel top = ret w -> In (t, entries) w ->
  Globber.listdir self t = Some entries.
Proof.
  revert top w. induction fuel as [|fuel IH]; intros top w H Hin; [discriminate |].
  rewrite walk_step in H. destruct (Globber.listdir self top) as [items|] eqn:El.
  - unfold cbind, ret in H.
    match type of H with
    | match ?X with _ => _ end = _ => destruct X as [[rs|e']|] eqn:E; try discriminate
    end.
    injection H as <-. destruct Hin as [Hin | Hin].
    + injection Hin as <- <-. assumption.
    + destruct (for_each_in _ _ _ _ E Hin) as [x [ys [_ [Hf Hy]]]]. cbv beta in Hf.
      destruct (enters top x); [eauto |]. injection Hf as <-. contradiction.
  - injection H as <-. contradiction.
Qed.

(** The directories from which the walk returns: the listing fails, or the
    walk returns from every entry it goes into. *)
Inductive walk_halts : text -> Prop :=
| halts_unreadable (top : text) :
    Globber.listdir self top = None -> walk_halts top
| halts_listing (top : text) (items : list text) :
    Globber.listdir self top = Some items ->
    (forall name, In name items -> enters top name = true -> walk_halts (child top name)) ->
    walk_halts top.

Lemma walk_halts_returns (top : text) :
  walk_halts top -> exists fuel w, Globber.walk self fuel top = ret w.
Proof.
  induction 1 as [top El | top items El _ IH].
  - exists 1, []. rewrite walk_step, El. reflexivity.
  - destruct (for_each_fuel
                (fun fuel name =>
                   if enters top name then Globber.walk self fuel (child top name) else ret [])
                items) as [fuel [r Hr]].
    + intros x n m r Hle. destruct (enters top x); [| auto]. now apply walk_mono.
    + intros x Hx. cbv beta. destruct (enters top x) eqn:Ex.
      * destruct (IH x Hx Ex) as [fuel [w Hw]]. eauto.
      * exists 0, (Ok []). reflexivity.
    + destruct r as [below|e].
      * exists (S fuel), ((top, items) :: below). rewrite walk_step, El, Hr. reflexivity.
      * exfalso. apply for_each_raise in Hr as [x [_ Hx]]. cbv beta in Hx.
        destruct (enters top x); [| discriminate]. now apply walk_no_raise in Hx.
Qed.

(** A filesystem with a rank that falls along every step of the walk: a
    finite directory graph without cycle among the links the walk follows. *)
Lemma ranked_halts (rank : text -> nat) :
  (forall top items name,
      Globber.listdir self top = Some items -> In name items -> enters top name = true ->
      rank (child top name) < rank top) ->
  forall top, walk_halts top.
Proof.
  intros Hrank top. remember (rank top) as n eqn:Hn. revert top Hn.
  induction n as [n IH] using lt_wf_ind. intros top Hn.
  destruct (Globber.listdir self top) as [items|] eqn:El.
  - apply halts_listing with (items := items); [assumption |].
    intros name Hin He. apply (IH (rank (child top name))); [| reflexivity].
    subst n. now apply Hrank with (items := items).
  - now apply halts_unreadable.
Qed.

End Walk.

(** ** Matching the names of a directory *)

Section Filter.

Variable self : Globber.t.

Lemma filter_answers (names : list text) (pat : text) :
  Globber.filter self names pat = throw ReError \/
  exists r, Globber.filter self names pat = ret r.
Proof.
  unfold Globber.filter.
  destruct (_compile_pattern_answers (Globber._norm_paths self pat)
              (Globber.case_sensitive self)) as [-> | [ns ->]].
  - now left.
  - right. eexists. reflexivity.
Qed.

(** [filter] returns names of the list it is given. *)
Lemma filter_names (names : list text) (pat : text) (r : list found) (n : text)
  (caps : list text) :
  Globber.filter self names pat = ret r -> In (n, caps) r -> In n names.
Proof.
  unfold Globber.filter, cbind, ret.
  destruct (_compile_pattern _ _) as [[m|e]|]; try discriminate.
  intro H; injection H as <-. intro Hin.
  apply in_flat_map in Hin as [x [Hx Hin]].
  destruct (re_match m _); [| contradiction].
  destruct Hin as [Hin | []]. injection Hin as <- _. assumption.
Qed.

Lemma _norm_paths_star : Globber._norm_paths self (str "*") = str "*".
Proof. unfold Globber._norm_paths. destruct (Globber.norm_paths self) as [[|]|]; reflexivity. Qed.

(** The star alone takes the whole name, whatever the case flag. *)
Lemma run_star_any (ic : bool) (s acc : text) (g : list text) :
  run ic true [NStar AAny; NClose; NEndZ] s (mk_mstate (Some acc) g) =
  Some (mk_mstate None (g ++ [acc ++ s])).
Proof.
  revert acc. induction s as [|c s IH]; intro acc.
  - rewrite run_star_nil. cbn. now rewrite app_nil_r.
  - rewrite run_star_cons. cbn [accepts orb]. unfold feed. cbn [m_cur m_groups option_map].
    rewrite IH, <- app_assoc. reflexivity.
Qed.

(** [filter(names, '*')]: every name matches, the capture is the name with
    its separators equalized, twice. *)
Lemma filter_star (names : list text) :
  Globber.filter self names (str "*") =
  ret (map (fun n => (n, [Globber._norm_paths self (Globber._norm_paths self n)])) names).
Proof.
  unfold Globber.filter. rewrite _norm_paths_star.
  change (str "*") with ([] ++ star :: []) at 1.
  rewrite (_compile_pattern_one_star [] [] (Globber.case_sensitive self) eq_refl eq_refl).
  cbn [cbind ret literals map app]. f_equal. f_equal.
  induction names as [|n names IH]; [reflexivity |].
  cbn [flat_map map]. rewrite IH. unfold re_match at 1.
  cbn [re_ignorecase re_dotall re_nodes].
  change (run ?ic true (NOpen :: ?r) ?s (mk_mstate None []))
    with (run ic true r s (mk_mstate (Some []) [])).
  rewrite run_star_any. reflexivity.
Qed.

(** The names that the filter of hidden files keeps. *)
Definition visible (x : text) : bool :=
  match x with
  | [] => true
  | c :: _ => negb (Ascii.eqb c dot)
  end.

Lemma remove_hidden_returns (names : list text) :
  Globber.remove_hidden names = Ok (List.filter visible names).
Proof.
  induction names as [|x names IH]; [reflexivity |].
  cbn [Globber.remove_hidden List.filter]. rewrite IH.
  destruct x as [|c x]; reflexivity.
Qed.

(** The first code unit of a pattern is the dot. *)
Definition dotted (pattern : text) : bool :=
  match pattern with
  | [] => false
  | c :: _ => Ascii.eqb c dot
  end.

Lemma _ishidden_magic (pattern : text) :
  has_magic pattern = true -> _ishidden pattern = Ok (dotted pattern).
Proof. destruct pattern; [discriminate | reflexivity]. Qed.

(** The candidates that the filter of hidden files leaves. *)
Definition shown (pattern : text) (names : list text) : list text :=
  if Globber.include_hidden self || dotted pattern then names
  else List.filter visible names.

Definition effective_dirname (dirname : text) : text :=
  if text_eqb dirname [] then curdir else dirname.

Lemma globstar_names_no_raise (fuel : nat) (dirname : text) (gwr : bool) (e : exn) :
  Globber.globstar_names self fuel dirname gwr <> throw e.
Proof.
  unfold Globber.globstar_names, cbind, ret, throw.
  destruct (Globber.walk self fuel dirname) as [[w|e']|] eqn:E; try discriminate.
  now apply walk_no_raise in E.
Qed.

(** [resolve_pattern] on a pattern without wildcard. *)
Lemma resolve_pattern_literal (fuel : nat) (dirname pattern : text) (gwr : bool) :
  has_magic pattern = false ->
  Globber.resolve_pattern self fuel dirname pattern gwr =
  if text_eqb pattern [] then
    if Globber.isdir self dirname then ret [(pattern, [])] else ret []
  else
    if Globber.exists_ self (_join_paths [dirname; pattern] (Globber.sep self))
    then ret [(pattern, [])] else ret [].
Proof. intro H. unfold Globber.resolve_pattern. now rewrite H. Qed.

(** [resolve_pattern] on the pattern [**]. *)
Lemma resolve_pattern_globstar (fuel : nat) (dirname : text) (gwr : bool) :
  Globber.resolve_pattern self fuel dirname (str "**") gwr =
  (names <- Globber.globstar_names self fuel (effective_dirname dirname) gwr ;;
   Globber.filter self (shown (str "*") names) (str "*"))%comp.
Proof.
  unfold Globber.resolve_pattern. cbn [has_magic existsb negb].
  replace (is_magic "*" || (is_magic "*" || false)) with true by reflexivity. cbn [negb].
  unfold Globber.candidates. rewrite text_eqb_refl. fold (effective_dirname dirname).
  pose proof (globstar_names_no_raise fuel (effective_dirname dirname) gwr) as Hno.
  unfold cbind at 1. unfold cbind at 2.
  destruct (Globber.globstar_names self fuel (effective_dirname dirname) gwr)
    as [[names|e]|]; [| now destruct (Hno e) | reflexivity].
  cbn [ret]. unfold shown. cbn [dotted]. replace (Ascii.eqb "*" dot) with false by reflexivity.
  rewrite orb_false_r. destruct (Globber.include_hidden self); cbn [negb cbind ret].
  - reflexivity.
  - cbn [lift _ishidden str list_ascii_of_string cbind].
    replace (Ascii.eqb "*" dot) with false by reflexivity. cbn [negb].
    rewrite remove_hidden_returns. reflexivity.
Qed.

(** [resolve_pattern] on any other pattern with a wildcard. *)
Lemma resolve_pattern_listing (fuel : nat) (dirname pattern : text) (gwr : bool) :
  has_magic pattern = true -> pattern <> str "**" ->
  Globber.resolve_pattern self fuel dirname pattern gwr =
  match Globber.listdir self (effective_dirname dirname) with
  | None => ret []
  | Some names => Globber.filter self (shown pattern names) pattern
  end.
Proof.
  intros Hm Hne. unfold Globber.resolve_pattern. rewrite Hm. cbn [negb].
  unfold Globber.candidates. apply text_eqb_neq in Hne. rewrite Hne.
  fold (effective_dirname dirname).
  destruct (Globber.listdir self (effective_dirname dirname)) as [names|]; [| reflexivity].
  cbn [ret]. unfold shown. rewrite (_ishidden_magic pattern Hm).
  destruct (Globber.include_hidden self); cbn [negb cbind ret lift orb]; [reflexivity |].
  destruct (dotted pattern); cbn [negb]; [reflexivity |].
  rewrite remove_hidden_returns. reflexivity.
Qed.

(** [resolve_pattern] raises nothing but the [re.error] of a pattern that
    does not compile. *)
Lemma resolve_pattern_raises (fuel : nat) (dirname pattern : text) (gwr : bool) (e : exn) :
  Globber.resolve_pattern self fuel dirname pattern gwr = throw e -> e = ReError.
Proof.
  destruct (has_magic pattern) eqn:Hm.
  - destruct (text_eqb pattern (str "**")) eqn:E.
    + apply text_eqb_eq in E. subst pattern. rewrite resolve_pattern_globstar.
      unfold cbind.
      destruct (Globber.globstar_names _ _ _ _) as [[names|e']|] eqn:G.
      * rewrite filter_star. discriminate.
      * now apply globstar_names_no_raise in G.
      * discriminate.
    + apply text_eqb_neq in E. rewrite resolve_pattern_listing by assumption.
      destruct (Globber.listdir _ _) as [names|]; [| discriminate].
      destruct (filter_answers (shown pattern names) pattern) as [-> | [r ->]].
      * intro H; now injection H.
      * discriminate.
  - rewrite resolve_pattern_literal by assumption.
    destruct (text_eqb pattern []).
    + destruct (Globber.isdir _ _); discriminate.
    + destruct (Globber.exists_ _ _); discriminate.
Qed.

Lemma resolve_pattern_mono (fuel fuel' : nat) (dirname pattern : text) (gwr : bool)
  (r : result (list found)) :
  fuel <= fuel' ->
  Globber.resolve_pattern self fuel dirname pattern gwr = Some r ->
  Globber.resolve_pattern self fuel' dirname pattern gwr = Some r.
Proof.
  intro Hle. destruct (has_magic pattern) eqn:Hm.
  - destruct (text_eqb pattern (str "**")) eqn:E.
    + apply text_eqb_eq in E. subst pattern. rewrite !resolve_pattern_globstar.
      unfold Globber.globstar_names, cbind.
      destruct (Globber.walk self fuel _) as [w|] eqn:W; [| discriminate].
      rewrite (walk_mono self fuel fuel' _ _ Hle W). auto.
    + apply text_eqb_neq in E. rewrite !resolve_pattern_listing by assumption. auto.
  - rewrite !resolve_pattern_literal by assumption. auto.
Qed.

(** [resolve_pattern] returns when the walk does. *)
Lemma resolve_pattern_halts (dirname pattern : text) (gwr : bool) :
  walk_halts self (effective_dirname dirname) ->
  exists fuel r, Globber.resolve_pattern self fuel dirname pattern gwr = Some r.
Proof.
  intro Hw. destruct (has_magic pattern) eqn:Hm.
  - destruct (text_eqb pattern (str "**")) eqn:E.
    + apply text_eqb_eq in E. subst pattern.
      destruct (walk_halts_returns self _ Hw) as [fuel [w Ew]].
      exists fuel. rewrite resolve_pattern_globstar.
      unfold Globber.globstar_names. rewrite Ew. cbn [cbind ret].
      rewrite filter_star. eexists. reflexivity.
    + apply text_eqb_neq in E. exists 0. rewrite resolve_pattern_listing by assumption.
      destruct (Globber.listdir _ _) as [names|]; [| eexists; reflexivity].
      destruct (filter_answers (shown pattern names) pattern) as [-> | [r ->]]; eexists; reflexivity.
  - exists 0. rewrite resolve_pattern_literal by assumption.
    destruct (text_eqb pattern []).
    + destruct (Globber.isdir _ _); eexists; reflexivity.
    + destruct (Globber.exists_ _ _); eexists; reflexivity.
Qed.

End Filter.

(** ** The recursion of [_iglob] *)

Section Iglob.

Variable self : Globber.t.

(** One pass of the loop [for dirname, dir_groups in dirs] of [_iglob]. *)
Definition resolve_in (fuel : nat) (basename : text) (rootcall : bool)
  (dir : found) : comp (list found) :=
  let '(dirname, dir_groups) := dir in
  (names <- Globber.resolve_pattern self fuel dirname basename (negb rootcall) ;;
   ret (map (fun '(name, groups) =>
          (_join_paths [dirname; name] (Globber.sep self), dir_groups ++ groups)) names))%comp.

Lemma _iglob_unfold (fuel : nat) (pathname : text) (rootcall : bool) :
  Resolver._iglob self fuel pathname rootcall =
  if has_magic pathname then
    let dirname := fst (split pathname) in
    let basename := snd (split pathname) in
    (dirs <- (if negb (text_eqb dirname pathname) && has_magic dirname
              then Resolver._iglob self fuel dirname false
              else ret [(dirname, [])]) ;;
     for_each (resolve_in fuel basename rootcall) dirs)%comp
  else if Globber.exists_ self pathname then ret [(pathname, [])] else ret [].
Proof.
  rewrite Resolver._iglob_equation_1. unfold Resolver.inspect.
  match goal with
  | |- _ = if _ then ?X else ?Y =>
      enough (H : forall (b : bool) (e : has_magic pathname = b),
                 Resolver._iglob_unfold_clause_1 self fuel pathname (exist _ b e) rootcall =
                 if b then X else Y) by apply H
  end.
  intros [|] e; reflexivity.
Qed.

Lemma resolve_in_raises (fuel : nat) (basename : text) (rootcall : bool) (dir : found)
  (e : exn) :
  resolve_in fuel basename rootcall dir = throw e -> e = ReError.
Proof.
  destruct dir as [dirname dir_groups]. unfold resolve_in, cbind, ret, throw.
  destruct (Globber.resolve_pattern _ _ _ _ _) as [[names|e']|] eqn:E; try discriminate.
  intro H; injection H as ->. now apply resolve_pattern_raises in E.
Qed.

Lemma resolve_in_mono (fuel fuel' : nat) (basename : text) (rootcall : bool) (dir : found)
  (r : result (list found)) :
  fuel <= fuel' ->
  resolve_in fuel basename rootcall dir = Some r ->
  resolve_in fuel' basename rootcall dir = Some r.
Proof.
  intro Hle. destruct dir as [dirname dir_groups]. unfold resolve_in, cbind.
  destruct (Globber.resolve_pattern self fuel _ _ _) as [x|] eqn:E; [| discriminate].
  rewrite (resolve_pattern_mono self fuel fuel' _ _ _ _ Hle E). auto.
Qed.

(** [_iglob] raises nothing but [re.error]. *)
Lemma _iglob_raises (fuel : nat) (pathname : text) (rootcall : bool) (e : exn) :
  Resolver._iglob self fuel pathname rootcall = throw e -> e = ReError.
Proof.
  remember (List.length pathname) as n eqn:Hn. revert pathname rootcall Hn.
  induction n as [n IH] using lt_wf_ind. intros pathname rootcall Hn.
  rewrite _iglob_unfold. destruct (has_magic pathname) eqn:Hm.
  - cbv zeta. unfold cbind.
    destruct (negb _ && has_magic _).
    + destruct (Resolver._iglob self fuel (fst (split pathname)) false) as [[dirs|e']|] eqn:E.
      * intro H. apply for_each_raise in H as [d [_ H]]. now apply resolve_in_raises in H.
      * intro H; injection H as ->.
        apply (IH (List.length (fst (split pathname)))) with (3 := E); [| reflexivity].
        subst n. now apply split_fst_shorter.
      * discriminate.
    + cbn [ret]. intro H. apply for_each_raise in H as [d [_ H]].
      now apply resolve_in_raises in H.
  - destruct (Globber.exists_ self pathname); discriminate.
Qed.

Lemma _iglob_mono (fuel fuel' : nat) (pathname : text) (rootcall : bool)
  (r : result (list found)) :
  fuel <= fuel' ->
  Resolver._iglob self fuel pathname rootcall = Some r ->
  Resolver._iglob self fuel' pathname rootcall = Some r.
Proof.
  intro Hle. remember (List.length pathname) as n eqn:Hn. revert pathname rootcall r Hn.
  induction n as [n IH] using lt_wf_ind. intros pathname rootcall r Hn.
  rewrite !_iglob_unfold. destruct (has_magic pathname) eqn:Hm; [| auto].
  cbv zeta. unfold cbind.
  assert (Hloop : forall dirs r',
    for_each (resolve_in fuel (snd (split pathname)) rootcall) dirs = Some r' ->
    for_each (resolve_in fuel' (snd (split pathname)) rootcall) dirs = Some r').
  { intros dirs r'. apply for_each_mono. intros d r'' _. now apply resolve_in_mono. }
  destruct (negb _ && has_magic _).
  - destruct (Resolver._iglob self fuel (fst (split pathname)) false) as [rd|] eqn:E;
      [| discriminate].
    rewrite (IH (List.length (fst (split pathname)))) with (r := rd);
      [| subst n; now apply split_fst_shorter | reflexivity | assumption].
    destruct rd as [dirs|e]; [apply Hloop | auto].
  - cbn [ret]. apply Hloop.
Qed.

(** [_iglob] returns on a filesystem from whose directories the walk
    returns. *)
Lemma _iglob_halts (pathname : text) (rootcall : bool) :
  (forall top, walk_halts self top) ->
  exists fuel r, Resolver._iglob self fuel pathname rootcall = Some r.
Proof.
  intro Hw. remember (List.length pathname) as n eqn:Hn. revert pathname rootcall Hn.
  induction n as [n IH] using lt_wf_ind. intros pathname rootcall Hn.
  assert (Hloop : forall dirs,
    exists fuel r, for_each (resolve_in fuel (snd (split pathname)) rootcall) dirs = Some r).
  { intro dirs.
    apply (for_each_fuel (fun fuel => resolve_in fuel (snd (split pathname)) rootcall)).
    - intros d a b r Hle. now apply resolve_in_mono.
    - intros [dirname dir_groups] _.
      destruct (resolve_pattern_halts self dirname (snd (split pathname)) (negb rootcall)
                  (Hw _)) as [fuel [r Hr]].
      exists fuel. unfold resolve_in. rewrite Hr. unfold cbind, ret.
      destruct r; eexists; reflexivity. }
  destruct (has_magic pathname) eqn:Hm.
  - destruct (negb (text_eqb (fst (split pathname)) pathname) &&
              has_magic (fst (split pathname))) eqn:Hg.
    + assert (Hlt : List.length (fst (split pathname)) < n)
        by (subst n; now apply split_fst_shorter).
      destruct (IH _ Hlt (fst (split pathname)) false eq_refl) as [f1 [rd H1]].
      destruct rd as [dirs|e].
      * destruct (Hloop dirs) as [f2 [r H2]].
        exists (Nat.max f1 f2), r. rewrite _iglob_unfold, Hm. cbv zeta. rewrite Hg.
        rewrite (_iglob_mono f1 (Nat.max f1 f2) _ _ _ (Nat.le_max_l f1 f2) H1).
        cbn [cbind]. apply for_each_mono with (2 := H2).
        intros d r' _. apply resolve_in_mono. lia.
      * exists f1, (Raise e). rewrite _iglob_unfold, Hm. cbv zeta. rewrite Hg, H1. reflexivity.
    + destruct (Hloop [(fst (split pathname), [])]) as [f2 [r H2]].
      exists f2, r. rewrite _iglob_unfold, Hm. cbv zeta. rewrite Hg. exact H2.
  - exists 0. rewrite _iglob_unfold, Hm.
    destruct (Globber.exists_ self pathname); eexists; reflexivity.
Qed.

End Iglob.

(** * The claims *)

(** ** Patterns without wildcard *)

(** C2. For a pattern without wildcard character, [_iglob] yields the one
    result [(P, ())] if the capability set says that [P] exists and nothing
    otherwise.  It needs no fuel and gives the same answer whatever [listdir]
    is: no directory is listed; a path that does not exist gives the empty
    sequence, no error. *)
Theorem literal_pattern_fast_path (self : Globber.t) (fuel : nat) (P : text)
  (rootcall : bool) :
  has_magic P = false ->
  Resolver._iglob self fuel P rootcall =
    ret (if Globber.exists_ self P then [(P, [])] else []) /\
  (forall listdir',
      Resolver._iglob (with_listdir self listdir') fuel P rootcall =
      Resolver._iglob self fuel P rootcall).
Proof.
  intro H. split.
  - rewrite _iglob_unfold, H. now destruct (Globber.exists_ self P).
  - intro listdir'. rewrite !_iglob_unfold, H. reflexivity.
Qed.

Lemma literal_pattern_fast_path_witness :
  has_magic (str "a/bar.py") = false /\
  (Resolver._iglob (table_globber false recursive_tree) 0 (str "a/bar.py") true =
     ret (if Globber.exists_ (table_globber false recursive_tree) (str "a/bar.py")
          then [(str "a/bar.py", [])] else []) /\
   (forall listdir',
       Resolver._iglob (with_listdir (table_globber false recursive_tree) listdir') 0
         (str "a/bar.py") true =
       Resolver._iglob (table_globber false recursive_tree) 0 (str "a/bar.py") true)).
Proof.
  split; [reflexivity |].
  apply (literal_pattern_fast_path (table_globber false recursive_tree) 0 (str "a/bar.py") true).
  reflexivity.
Defined.

(** C5. [resolve_pattern(dirname, "")] returns the one result with the empty
    name and no capture if [dirname] is a directory, and nothing otherwise;
    the answer is the same whatever [listdir] is: no directory is listed. *)
Theorem empty_pattern_selects_directories (self : Globber.t) (fuel : nat) (dirname : text)
  (globstar_with_root : bool) :
  Globber.resolve_pattern self fuel dirname [] globstar_with_root =
    ret (if Globber.isdir self dirname then [([], [])] else []) /\
  (forall listdir',
      Globber.resolve_pattern (with_listdir self listdir') fuel dirname []
        globstar_with_root =
      Globber.resolve_pattern self fuel dirname [] globstar_with_root).
Proof.
  split.
  - rewrite resolve_pattern_literal by reflexivity. cbn [text_eqb].
    now destruct (Globber.isdir self dirname).
  - intro listdir'. rewrite !resolve_pattern_literal by reflexivity. reflexivity.
Qed.

(** ** Hidden entries *)

(** C4. For a pattern with a wildcard that is not [**], [resolve_pattern]
    matches the listing of the directory, from which it first removes the
    names that start with a dot unless [include_hidden] is set or the pattern
    starts with a dot; a name so removed is in no result. *)
Theorem hidden_entries_are_excluded (self : Globber.t) (fuel : nat)
  (dirname pattern : text) (globstar_with_root : bool) :
  has_magic pattern = true -> pattern <> str "**" ->
  Globber.resolve_pattern self fuel dirname pattern globstar_with_root =
    match Globber.listdir self (effective_dirname dirname) with
    | None => ret []
    | Some names =>
        Globber.filter self
          (if Globber.include_hidden self || dotted pattern then names
           else List.filter visible names) pattern
    end /\
  (Globber.include_hidden self = false -> dotted pattern = false ->
   forall res name groups,
     Globber.resolve_pattern self fuel dirname pattern globstar_with_root = ret res ->
     In (name, groups) res -> startswith [dot] name = false).
Proof.
  intros Hm Hne. split.
  - now apply resolve_pattern_listing.
  - intros Hh Hd res name groups.
    rewrite resolve_pattern_listing by assumption.
    unfold shown. rewrite Hh, Hd. cbn [orb].
    destruct (Globber.listdir self (effective_dirname dirname)) as [names|].
    + intros Hf Hin. apply (filter_names self _ _ _ _ _ Hf) in Hin.
      apply filter_In in Hin as [_ Hv].
      destruct name as [|c name]; [reflexivity |].
      cbn in Hv |- *. rewrite andb_true_r, Ascii.eqb_sym.
      now destruct (Ascii.eqb c dot).
    + intro H; injection H as <-. contradiction.
Qed.

Lemma hidden_entries_are_excluded_witness :
  has_magic (str "*") = true /\ str "*" <> str "**" /\
  (Globber.resolve_pattern (table_globber false hidden_tree) 0 (str "a") (str "*") false =
     match Globber.listdir (table_globber false hidden_tree) (effective_dirname (str "a")) with
     | None => ret []
     | Some names =>
         Globber.filter (table_globber false hidden_tree)
           (if Globber.include_hidden (table_globber false hidden_tree) || dotted (str "*")
            then names else List.filter visible names) (str "*")
     end /\
   (Globber.include_hidden (table_globber false hidden_tree) = false ->
    dotted (str "*") = false ->
    forall res name groups,
      Globber.resolve_pattern (table_globber false hidden_tree) 0 (str "a") (str "*") false =
        ret res ->
      In (name, groups) res -> startswith [dot] name = false)).
Proof.
  split; [reflexivity |]. split; [discriminate |].
  apply (hidden_entries_are_excluded (table_globber false hidden_tree) 0 (str "a") (str "*")
           false); [reflexivity | discriminate].
Defined.

(** C10. [_ishidden] indexes its argument and raises on the empty name, but
    the filter of hidden names tests the name first, so the empty name is
    kept without being indexed; [_ishidden(pattern)] is evaluated on patterns
    with a wildcard, which are not empty; the translator indexes a class that
    is not empty: [resolve_pattern] and [_iglob] never raise [IndexError]. *)
Theorem hidden_test_is_guarded :
  _ishidden [] = Raise IndexError /\
  Globber.not_hidden [] = Ok true /\
  (forall names, Globber.remove_hidden names = Ok (List.filter visible names)) /\
  (forall names kept,
      Globber.remove_hidden names = Ok kept -> In [] names -> In [] kept) /\
  (forall pattern,
      has_magic pattern = true -> pattern <> [] /\ exists b, _ishidden pattern = Ok b) /\
  (forall self fuel dirname pattern globstar_with_root,
      Globber.resolve_pattern self fuel dirname pattern globstar_with_root <>
      throw IndexError) /\
  (forall self fuel pathname rootcall,
      Resolver._iglob self fuel pathname rootcall <> throw IndexError).
Proof.
  split; [reflexivity |]. split; [reflexivity |].
  split; [exact remove_hidden_returns |].
  split.
  { intros names kept H Hin. rewrite remove_hidden_returns in H. injection H as <-.
    apply filter_In. now split. }
  split.
  { intros pattern H. split; [destruct pattern; discriminate |].
    exists (dotted pattern). now apply _ishidden_magic. }
  split.
  - intros self fuel dirname pattern gwr H. apply resolve_pattern_raises in H. discriminate.
  - intros self fuel pathname rootcall H. apply _iglob_raises in H. discriminate.
Qed.

(** ** Captures of a single star *)

Lemma sub_seps_fixes (sep x : text) :
  existsb is_sep x = false -> sub_seps sep x = x.
Proof.
  induction x as [|c x IH]; [reflexivity |].
  cbn [existsb]. intro H. apply orb_false_iff in H as [Hc Hx].
  unfold sub_seps in *. cbn [flat_map]. rewrite Hc, IH by assumption. reflexivity.
Qed.

(** [_norm_paths] leaves a text as it is when [norm_paths] is not [None] or
    the text has no slash and no backslash. *)
Lemma _norm_paths_fixes (self : Globber.t) (x : text) :
  Globber.norm_paths self <> None \/ existsb is_sep x = false ->
  Globber._norm_paths self x = x.
Proof.
  unfold Globber._norm_paths. intros [H | H].
  - destruct (Globber.norm_paths self) as [[|]|]; [reflexivity | reflexivity | congruence].
  - destruct (Globber.norm_paths self) as [[|]|]; [reflexivity | reflexivity |].
    now apply sub_seps_fixes.
Qed.



(** *** Matching without regard to case, and normalised separators *)
















(** ** Unclosed character classes *)

Lemma translate_unclosed (pre rest : text) :
  has_magic pre = false -> has_magic rest = false -> class_end rest = None ->
  translate (pre ++ lbracket :: rest) =
  Ok (flat_map escape (pre ++ lbracket :: rest) ++ str "\Z(?ms)").
Proof.
  intros Hp Hr Hc. unfold translate.
  rewrite translate_loop_literal by assumption.
  rewrite translate_loop_equation_2.
  replace (Ascii.eqb lbracket star) with false by reflexivity.
  replace (Ascii.eqb lbracket qmark) with false by reflexivity.
  replace (Ascii.eqb lbracket lbracket) with true by reflexivity.
  rewrite Hc. rewrite <- (app_nil_r rest) at 1.
  rewrite translate_loop_literal by assumption.
  rewrite translate_loop_equation_1. cbn [bind app].
  rewrite flat_map_app. cbn [flat_map]. rewrite <- !app_assoc. reflexivity.
Qed.

(** A pattern that is translated code unit by code unit compiles to the
    code of its own text. *)
Lemma _compile_pattern_escaped (P : text) (cs : bool) :
  translate P = Ok (flat_map escape P ++ str "\Z(?ms)") ->
  _compile_pattern P cs = ret (mk_regex (literals P ++ [NEndZ]) true (negb cs)).
Proof.
  intro H. unfold _compile_pattern. rewrite H.
  cbn [lift cbind]. unfold re_compile. rewrite steps_app.
  change p_init with (at_top [] false false false).
  rewrite steps_literals, steps_end. cbn [cbind ret at_top p_mode p_open p_nodes p_dotall].
  cbn [rev]. rewrite app_nil_r. fold (literals P). now rewrite rev_involutive.
Qed.

(** C6. When the scan behind a bracket reaches the end of the segment,
    [translate] writes the bracket as the escaped literal [\[] and goes on
    with the code unit behind it; the escaped bracket compiles to one literal
    item, no group and no wildcard; nothing is raised, and a segment whose
    other code units are literal matches its own text only, with no
    capture. *)
Theorem unclosed_class_is_literal (rest : text) :
  class_end rest = None ->
  (forall res,
      translate_loop (lbracket :: rest) res = translate_loop rest (res ++ str "\[")) /\
  (forall ns o ml da,
      steps (str "\[") (ret (at_top ns o ml da)) =
      ret (at_top (NChar (ALit lbracket) :: ns) o ml da)) /\
  (forall pre, exists r, translate (pre ++ lbracket :: rest) = Ok r) /\
  (forall pre,
      has_magic pre = false -> has_magic rest = false ->
      exists match_,
        _compile_pattern (pre ++ lbracket :: rest) true = ret match_ /\
        forall N, re_match match_ N =
                  if text_eqb (pre ++ lbracket :: rest) N then Some [] else None).
Proof.
  intro Hc. split; [| split; [| split]].
  - intro res. rewrite translate_loop_equation_2.
    replace (Ascii.eqb lbracket star) with false by reflexivity.
    replace (Ascii.eqb lbracket qmark) with false by reflexivity.
    replace (Ascii.eqb lbracket lbracket) with true by reflexivity.
    now rewrite Hc.
  - intros. apply steps_lbracket.
  - intro pre. apply translate_returns.
  - intros pre Hp Hr. eexists. split.
    + apply _compile_pattern_escaped. now apply translate_unclosed.
    + intro N. apply re_match_literal.
Qed.

Lemma unclosed_class_is_literal_witness :
  class_end (str "ab") = None /\
  ((forall res,
       translate_loop (lbracket :: str "ab") res =
       translate_loop (str "ab") (res ++ str "\[")) /\
   (forall ns o ml da,
       steps (str "\[") (ret (at_top ns o ml da)) =
       ret (at_top (NChar (ALit lbracket) :: ns) o ml da)) /\
   (forall pre, exists r, translate (pre ++ lbracket :: str "ab") = Ok r) /\
   (forall pre,
       has_magic pre = false -> has_magic (str "ab") = false ->
       exists match_,
         _compile_pattern (pre ++ lbracket :: str "ab") true = ret match_ /\
         forall N, re_match match_ N =
                   if text_eqb (pre ++ lbracket :: str "ab") N then Some [] else None)).
Proof.
  split; [reflexivity |].
  apply (unclosed_class_is_literal (str "ab")). reflexivity.
Defined.

(** ** Filesystems given by a table *)

Lemma table_listdir_in (tbl : list (text * list text)) (d : text) (items : list text) :
  table_listdir tbl d = Some items -> In (d, items) tbl.
Proof.
  unfold table_listdir. destruct (find _ tbl) as [[d' items']|] eqn:E; [| discriminate].
  intro H; injection H as <-. apply find_some in E as [Hin Heq].
  cbn in Heq. apply text_eqb_eq in Heq. now subst.
Qed.

Lemma table_named_listdir (tbl : list (text * list text)) :
  table_named tbl = true ->
  forall d items, table_listdir tbl d = Some items -> ~ In [] items.
Proof.
  intros H d items Hl Hin. apply table_listdir_in in Hl.
  unfold table_named in H. rewrite forallb_forall in H. specialize (H _ Hl). cbn in H.
  rewrite forallb_forall in H. specialize (H _ Hin). discriminate.
Qed.

(** The walk returns from every directory of a ranked table. *)
Lemma table_walk_halts (hidden : bool) (tbl : list (text * list text)) :
  table_ranked (Some slash_separator) tbl = true ->
  forall top, walk_halts (table_globber hidden tbl) top.
Proof.
  intro H. apply ranked_halts with (rank := table_rank tbl).
  intros top items name Hl Hin _. cbn in Hl. apply table_listdir_in in Hl.
  unfold table_ranked in H. rewrite forallb_forall in H. specialize (H _ Hl). cbn [fst snd] in H.
  rewrite forallb_forall in H. specialize (H _ Hin). now apply Nat.ltb_lt in H.
Qed.

(** ** Names and paths *)

Lemma join2_nonempty (a name : text) : name <> [] -> join2 a name <> [].
Proof.
  intro H. unfold join2. destruct (startswith [slash] name); [assumption |].
  destruct (text_eqb a [] || endswith [slash] a).
  - destruct a; [assumption | discriminate].
  - destruct a; discriminate.
Qed.

Lemma sub_seps_nonempty (sep x : text) : sep <> [] -> x <> [] -> sub_seps sep x <> [].
Proof.
  intros Hs Hx. destruct x as [|c x]; [congruence |].
  unfold sub_seps. cbn [flat_map]. destruct (is_sep c); [| discriminate].
  destruct sep; [congruence | discriminate].
Qed.

Lemma _join_paths_nonempty (a name : text) (sep : option separator) :
  name <> [] -> _join_paths [a; name] sep <> [].
Proof.
  intro H. unfold _join_paths. cbn [join fold_left].
  pose proof (join2_nonempty a name H) as Hj.
  destruct sep as [s|]; [| assumption].
  destruct (sep_text s) as [|c t] eqn:E; [assumption |].
  apply sub_seps_nonempty; [discriminate | assumption].
Qed.

Lemma _join_paths_empty (sep : option separator) : _join_paths [[]; []] sep = [].
Proof. unfold _join_paths. destruct sep as [s|]; [destruct (sep_text s) |]; reflexivity. Qed.

Lemma _norm_paths_empty (self : Globber.t) : Globber._norm_paths self [] = [].
Proof. unfold Globber._norm_paths. destruct (Globber.norm_paths self) as [[|]|]; reflexivity. Qed.

Lemma rfind_slash_succ_none (s : text) :
  existsb (Ascii.eqb slash) s = false -> rfind_slash_succ s = 0.
Proof.
  induction s as [|c s IH]; [reflexivity |].
  cbn [existsb rfind_slash_succ]. intro H. apply orb_false_iff in H as [Hc Hs].
  rewrite (IH Hs), Ascii.eqb_sym, Hc. reflexivity.
Qed.

Lemma split_globstar_slash (base : text) :
  existsb (Ascii.eqb slash) base = false -> split (str "**/" ++ base) = (str "**", base).
Proof.
  intro H. unfold split. cbn [str list_ascii_of_string app rfind_slash_succ].
  rewrite (rfind_slash_succ_none base H).
  replace (Ascii.eqb "/" slash) with true by reflexivity.
  replace (Ascii.eqb "*" slash) with false by reflexivity. reflexivity.
Qed.

Lemma has_magic_skipn (n : nat) (p : text) :
  has_magic (skipn n p) = true -> has_magic p = true.
Proof.
  revert p. induction n as [|n IH]; intros p H; [assumption |].
  destruct p as [|c p]; [discriminate |]. cbn [skipn] in H.
  change (has_magic (c :: p)) with (is_magic c || has_magic p).
  rewrite (IH p H). apply orb_true_r.
Qed.

Lemma has_magic_basename (p : text) :
  has_magic (snd (split p)) = true -> has_magic p = true.
Proof. unfold split. cbn [snd]. apply has_magic_skipn. Qed.

(** ** The results of [**] *)

Section Globstar.

Variable self : Globber.t.

(** What [resolve_pattern] returns for [**]: the candidates that the filter
    of hidden names leaves, each with itself as the capture. *)
Lemma resolve_pattern_globstar_results (fuel : nat) (dirname : text) (gwr : bool)
  (res : list found) :
  Globber.resolve_pattern self fuel dirname (str "**") gwr = ret res ->
  exists names,
    Globber.globstar_names self fuel (effective_dirname dirname) gwr = ret names /\
    res = map (fun n => (n, [Globber._norm_paths self (Globber._norm_paths self n)]))
              (shown self (str "*") names).
Proof.
  rewrite resolve_pattern_globstar. unfold cbind.
  destruct (Globber.globstar_names _ _ _ _) as [[names|e]|]; try discriminate.
  rewrite filter_star. intro H; injection H as <-. now exists names.
Qed.

Lemma shown_star (names : list text) :
  shown self (str "*") names =
  if Globber.include_hidden self then names else List.filter visible names.
Proof. unfold shown. cbn [dotted str list_ascii_of_string]. now rewrite orb_false_r. Qed.

Lemma shown_star_empty (names : list text) :
  In [] (shown self (str "*") names) <-> In [] names.
Proof.
  rewrite shown_star. destruct (Globber.include_hidden self); [reflexivity |].
  rewrite filter_In. cbn. tauto.
Qed.

(** The candidates of [**] hold the empty name exactly when it is asked
    for, on a filesystem that lists no empty name. *)
Lemma globstar_names_empty (fuel : nat) (dirname : text) (gwr : bool) (names : list text) :
  (forall d items, Globber.listdir self d = Some items -> ~ In [] items) ->
  Globber.globstar_names self fuel dirname gwr = ret names ->
  (In [] names <-> gwr = true).
Proof.
  intros Hnames. unfold Globber.globstar_names, cbind, ret.
  destruct (Globber.walk self fuel dirname) as [[w|e]|] eqn:W; try discriminate.
  intro H; injection H as <-. split.
  - intro Hin. apply in_app_or in Hin as [Hin | Hin].
    + destruct gwr; [reflexivity | contradiction].
    + exfalso. apply in_flat_map in Hin as [[top entries] [Hw Hin]].
      apply in_map_iff in Hin as [s [Hs Hin]].
      apply (walk_listed self fuel dirname w top entries W) in Hw.
      apply (_join_paths_nonempty (skipn (List.length dirname + 1) top) s (Globber.sep self));
        [| assumption].
      intros ->. now apply (Hnames _ _ Hw).
  - intros ->. now left.
Qed.

End Globstar.

(** ** The root of [**] *)

Lemma _iglob_globstar_root (self : Globber.t) (fuel : nat) (res : list found) :
  Resolver._iglob self fuel (str "**") false = ret res -> In ([], [[]]) res.
Proof.
  rewrite _iglob_unfold.
  change (has_magic (str "**")) with true. cbv iota zeta.
  change (fst (split (str "**"))) with (@nil ascii).
  change (snd (split (str "**"))) with (str "**").
  change (negb (text_eqb [] (str "**")) && has_magic []) with false. cbv iota.
  cbn [cbind ret for_each resolve_in negb]. unfold cbind.
  destruct (Globber.resolve_pattern self fuel [] (str "**") true) as [[names|e]|] eqn:E;
    try discriminate.
  cbn [ret]. intro H; injection H as <-. rewrite app_nil_r.
  apply resolve_pattern_globstar_results in E as [cands [Hc ->]].
  rewrite map_map. apply in_map_iff. exists []. split.
  - rewrite _join_paths_empty, !_norm_paths_empty. reflexivity.
  - apply shown_star_empty. unfold Globber.globstar_names, cbind, ret in Hc.
    destruct (Globber.walk self fuel _) as [[w|e]|]; try discriminate.
    injection Hc as <-. now left.
Qed.

(** C1. In [resolve_pattern] on the pattern [**] the candidate names and the
    results hold the empty name, for [dirname] itself, exactly when
    [globstar_with_root] is true, and [_iglob] passes [not rootcall] for it.
    So [**] resolved in a recursive call for the directory part gives the
    starting directory as a directory, and what the rest of the pattern
    matches directly in it is in the result of [**/rest]; [**] as the last
    segment of the root call gives no result for the empty name. *)
Theorem globstar_root_rule (self : Globber.t) :
  (forall d items, Globber.listdir self d = Some items -> ~ In [] items) ->
  (forall fuel dirname globstar_with_root names,
      Globber.globstar_names self fuel dirname globstar_with_root = ret names ->
      (In [] names <-> globstar_with_root = true)) /\
  (forall fuel dirname globstar_with_root res,
      Globber.resolve_pattern self fuel dirname (str "**") globstar_with_root = ret res ->
      (In [] (map fst res) <-> globstar_with_root = true)) /\
  (forall fuel pathname rootcall,
      has_magic pathname = true ->
      Resolver._iglob self fuel pathname rootcall =
      (dirs <- (if negb (text_eqb (fst (split pathname)) pathname) &&
                   has_magic (fst (split pathname))
                then Resolver._iglob self fuel (fst (split pathname)) false
                else ret [(fst (split pathname), [])]) ;;
       for_each (fun dir =>
         names <- Globber.resolve_pattern self fuel (fst dir) (snd (split pathname))
                    (negb rootcall) ;;
         ret (map (fun '(name, groups) =>
                (_join_paths [fst dir; name] (Globber.sep self), snd dir ++ groups)) names))
         dirs)%comp) /\
  (forall fuel res,
      Resolver._iglob self fuel (str "**") false = ret res -> In ([], [[]]) res) /\
  (forall fuel rest res,
      existsb (Ascii.eqb slash) rest = false ->
      Resolver._iglob self fuel (str "**/" ++ rest) true = ret res ->
      exists names,
        Globber.resolve_pattern self fuel [] rest false = ret names /\
        forall name groups,
          In (name, groups) names ->
          In (_join_paths [[]; name] (Globber.sep self), [[]] ++ groups) res) /\
  (forall fuel pathname res path groups,
      snd (split pathname) = str "**" ->
      Resolver._iglob self fuel pathname true = ret res ->
      In (path, groups) res ->
      exists dirname dir_groups name name_groups,
        name <> [] /\
        path = _join_paths [dirname; name] (Globber.sep self) /\
        groups = dir_groups ++ name_groups).
Proof.
  intro Hnames.
  assert (Hres : forall fuel dirname gwr res,
    Globber.resolve_pattern self fuel dirname (str "**") gwr = ret res ->
    (In [] (map fst res) <-> gwr = true)).
  { intros fuel dirname gwr res H.
    apply resolve_pattern_globstar_results in H as [names [Hc ->]].
    rewrite map_map. cbn [fst]. rewrite map_id, shown_star_empty.
    exact (globstar_names_empty self fuel (effective_dirname dirname) gwr names Hnames Hc). }
  split; [| split; [| split; [| split; [| split]]]].
  - intros fuel dirname gwr names. now apply (globstar_names_empty self).
  - exact Hres.
  - intros fuel pathname rootcall Hm. rewrite _iglob_unfold, Hm. cbv zeta.
    match goal with |- cbind ?X _ = _ => destruct X as [[dirs|e]|] end; try reflexivity.
    cbn [cbind]. induction dirs as [|[d dg] dirs IH]; [reflexivity |].
    cbn [for_each]. now rewrite IH.
  - intros fuel res. apply _iglob_globstar_root.
  - intros fuel rest res Hrest. rewrite _iglob_unfold.
    change (has_magic (str "**/" ++ rest)) with true. cbv iota zeta.
    rewrite (split_globstar_slash rest Hrest). cbn [fst snd].
    change (negb (text_eqb (str "**") (str "**/" ++ rest)) && has_magic (str "**"))
      with true. cbv iota. unfold cbind at 1.
    destruct (Resolver._iglob self fuel (str "**") false) as [[dirs|e]|] eqn:E;
      try discriminate.
    intro H. apply _iglob_globstar_root in E.
    destruct (for_each_incl _ _ _ _ H E) as [ys [Hy Hi]].
    unfold resolve_in, cbind, ret in Hy. cbn [negb] in Hy.
    destruct (Globber.resolve_pattern self fuel [] rest false) as [[names|e]|];
      try discriminate.
    injection Hy as <-. exists names. split; [reflexivity |].
    intros name groups Hin. apply Hi.
    apply in_map_iff. now exists (name, groups).
  - intros fuel pathname res path groups Hb.
    assert (Hm : has_magic pathname = true) by (apply has_magic_basename; now rewrite Hb).
    rewrite _iglob_unfold, Hm. cbv zeta. rewrite Hb.
    match goal with |- cbind ?X _ = _ -> _ => destruct X as [[dirs|e]|] end;
      try discriminate.
    cbn [cbind]. intros H Hin.
    destruct (for_each_in _ _ _ _ H Hin) as [[dirname dir_groups] [ys [_ [Hy Hin']]]].
    unfold resolve_in, cbind, ret in Hy. cbn [negb] in Hy.
    destruct (Globber.resolve_pattern self fuel dirname (str "**") false)
      as [[names|e]|] eqn:E; try discriminate.
    injection Hy as <-. apply in_map_iff in Hin' as [[name name_groups] [Heq Hn]].
    injection Heq as <- <-.
    exists dirname, dir_groups, name, name_groups. split; [| split; reflexivity].
    intros ->. apply (in_map fst) in Hn. cbn [fst] in Hn.
    apply (Hres fuel dirname false names E) in Hn. discriminate.
Qed.

Lemma globstar_root_rule_witness :
  (forall d items,
      Globber.listdir (table_globber false recursive_tree) d = Some items -> ~ In [] items) /\
  (forall fuel res,
      Resolver._iglob (table_globber false recursive_tree) fuel (str "**") false = ret res ->
      In ([], [[]]) res).
Proof.
  split.
  - apply (table_named_listdir recursive_tree). reflexivity.
  - apply (globstar_root_rule (table_globber false recursive_tree)
             (table_named_listdir recursive_tree eq_refl)).
Defined.

(** ** Directories that cannot be listed *)

(** C7, as stated, fails for [**] when the root is asked for: the directory
    [a] cannot be listed, and [resolve_pattern] returns a result, the empty
    name. *)
Lemma unreadable_directory_counterexample :
  Globber.listdir (table_globber false []) (str "a") = None /\
  Globber.resolve_pattern (table_globber false []) 1 (str "a") (str "**") true =
    ret [([], [[]])].
Proof. split; reflexivity. Qed.

(** C7, amended. When [listdir] fails on the directory, [resolve_pattern]
    returns the empty list, except for [**] with [globstar_with_root], where
    it returns the empty name alone; [walk] yields nothing for a directory it
    cannot list and goes on with the other entries; no [os.error] leaves
    [walk], [resolve_pattern] or [_iglob]. *)
Theorem unreadable_directory_is_skipped (self : Globber.t) :
  (forall fuel dirname pattern globstar_with_root,
      has_magic pattern = true ->
      Globber.listdir self (effective_dirname dirname) = None ->
      Globber.resolve_pattern self (S fuel) dirname pattern globstar_with_root =
      ret (if text_eqb pattern (str "**") && globstar_with_root
           then [([], [[]])] else [])) /\
  (forall fuel top,
      Globber.listdir self top = None -> Globber.walk self (S fuel) top = ret []) /\
  (forall fuel top items before bad after,
      Globber.listdir self top = Some items ->
      items = before ++ bad :: after ->
      Globber.listdir self (child self top bad) = None ->
      Globber.walk self (S (S fuel)) top =
      (below <- for_each (fun name =>
                  if enters self top name
                  then Globber.walk self (S fuel) (child self top name)
                  else ret []) (before ++ after) ;;
       ret ((top, items) :: below))%comp) /\
  (forall fuel top e, Globber.walk self fuel top <> throw e) /\
  (forall fuel dirname pattern globstar_with_root,
      Globber.resolve_pattern self fuel dirname pattern globstar_with_root <>
      throw OSError) /\
  (forall fuel pathname rootcall,
      Resolver._iglob self fuel pathname rootcall <> throw OSError).
Proof.
  split; [| split; [| split; [| split; [| split]]]].
  - intros fuel dirname pattern gwr Hm Hl.
    destruct (text_eqb pattern (str "**")) eqn:E.
    + apply text_eqb_eq in E. subst pattern. rewrite resolve_pattern_globstar.
      unfold Globber.globstar_names. rewrite walk_step, Hl. cbn [cbind ret app flat_map].
      rewrite filter_star, shown_star.
      destruct gwr; cbn [andb].
      * destruct (Globber.include_hidden self); cbn [app List.filter visible map];
          now rewrite !_norm_paths_empty.
      * now destruct (Globber.include_hidden self).
    + apply text_eqb_neq in E. rewrite resolve_pattern_listing by assumption.
      now rewrite Hl.
  - intros fuel top Hl. now rewrite walk_step, Hl.
  - intros fuel top items before bad after Hl -> Hbad.
    rewrite walk_step, Hl. f_equal.
    change (before ++ bad :: after) with (before ++ [bad] ++ after) at 1.
    rewrite !for_each_app. cbn [for_each]. rewrite (walk_step self fuel (child self top bad)), Hbad.
    destruct (for_each _ before) as [[a|e]|]; cbn [cbind ret]; try reflexivity.
    destruct (enters self top bad); cbn [cbind ret];
      destruct (for_each _ after) as [[b|e]|]; reflexivity.
  - intros fuel top e. apply walk_no_raise.
  - intros fuel dirname pattern gwr H. apply resolve_pattern_raises in H. discriminate.
  - intros fuel pathname rootcall H. apply _iglob_raises in H. discriminate.
Qed.

(** ** Termination *)

(** C8. On a filesystem from every directory of which the walk returns (a
    finite graph of directories without cycle along the links that the walk
    follows), [_iglob] returns, with its finite list of results, for every
    pattern once it has enough fuel; and the directory part of a pattern
    with a wildcard is shorter than the pattern, so the recursive call is on
    another pattern. *)
Theorem iglob_terminates (self : Globber.t) :
  (forall top, walk_halts self top) ->
  forall pathname rootcall,
    (exists fuel r,
        forall fuel', fuel <= fuel' ->
                      Resolver._iglob self fuel' pathname rootcall = Some r) /\
    (has_magic pathname = true ->
     List.length (fst (split pathname)) < List.length pathname /\
     fst (split pathname) <> pathname).
Proof.
  intros Hw pathname rootcall. split.
  - destruct (_iglob_halts self pathname rootcall Hw) as [fuel [r H]].
    exists fuel, r. intros fuel' Hle. now apply _iglob_mono with (fuel := fuel).
  - intro Hm. pose proof (split_fst_shorter pathname Hm) as Hlt.
    split; [assumption |]. intro E. rewrite E in Hlt. lia.
Qed.

Lemma iglob_terminates_witness :
  (forall top, walk_halts (table_globber false recursive_tree) top) /\
  (exists fuel r,
      forall fuel', fuel <= fuel' ->
        Resolver._iglob (table_globber false recursive_tree) fuel' (str "*/**/*.py") true =
        Some r).
Proof.
  split.
  - apply (table_walk_halts false recursive_tree). reflexivity.
  - apply (iglob_terminates (table_globber false recursive_tree)
             (table_walk_halts false recursive_tree eq_refl) (str "*/**/*.py") true).
Defined.

(** ** Paths that are joined plainly *)

(** A separator that leaves a path without backslash as it is. *)
Definition plain_separator (sep : option separator) : Prop :=
  match sep with
  | None => True
  | Some s => sep_text s = [] \/ sep_text s = str "/"
  end.

(** A name of an entry: not empty, without slash and backslash. *)
Definition entry_name (n : text) : Prop := n <> [] /\ existsb is_sep n = false.

(** A path to join entries to: not empty, no slash at its end, no backslash. *)
Definition joinable (t : text) : Prop :=
  t <> [] /\ endswith [slash] t = false /\ existsb (Ascii.eqb backslash) t = false.

(** A relative path: joinable, and no slash at its start. *)
Definition relative (r : text) : Prop := joinable r /\ startswith [slash] r = false.

Lemma sub_seps_slash (x : text) :
  existsb (Ascii.eqb backslash) x = false -> sub_seps (str "/") x = x.
Proof.
  induction x as [|c x IH]; [reflexivity |].
  cbn [existsb]. intro H. apply orb_false_iff in H as [Hc Hx].
  unfold sub_seps in *. cbn [flat_map]. rewrite (IH Hx). unfold is_sep.
  rewrite Ascii.eqb_sym, Hc. cbn [orb].
  destruct (Ascii.eqb c slash) eqn:E; [| reflexivity].
  apply Ascii.eqb_eq in E. now subst c.
Qed.

Lemma _join_paths_plain (a b : text) (sep : option separator) :
  plain_separator sep -> existsb (Ascii.eqb backslash) (join2 a b) = false ->
  _join_paths [a; b] sep = join2 a b.
Proof.
  intros Hs Hb. unfold _join_paths. cbn [join fold_left].
  destruct sep as [s|]; [| reflexivity]. cbn in Hs.
  destruct Hs as [-> | ->]; [reflexivity |]. now apply sub_seps_slash.
Qed.

Lemma endswith_app_nonempty (p : ascii) (x y : text) :
  y <> [] -> endswith [p] (x ++ y) = endswith [p] y.
Proof.
  intro H. unfold endswith. rewrite rev_app_distr.
  destruct (rev y) as [|c t] eqn:E.
  - apply (f_equal (@rev ascii)) in E. rewrite rev_involutive in E. now subst.
  - reflexivity.
Qed.

Lemma join2_append (a b : text) :
  a <> [] -> endswith [slash] a = false -> startswith [slash] b = false ->
  join2 a b = a ++ slash :: b.
Proof.
  intros Ha He Hb. unfold join2. rewrite Hb, He.
  apply text_eqb_neq in Ha. now rewrite Ha.
Qed.

Lemma join2_onto_empty (b : text) : startswith [slash] b = false -> join2 [] b = b.
Proof. intro H. unfold join2. now rewrite H. Qed.

Lemma entry_name_relative (n : text) : entry_name n -> relative n.
Proof.
  intros [Hne Hs].
  assert (Hall : forall c, In c n -> is_sep c = false).
  { intros c Hc. destruct (is_sep c) eqn:E; [| reflexivity].
    rewrite <- Hs. symmetry. apply existsb_exists. eauto. }
  assert (Hb : existsb (Ascii.eqb backslash) n = false).
  { apply not_true_is_false. intro H. apply existsb_exists in H as [c [Hc E]].
    apply Ascii.eqb_eq in E. subst c. now specialize (Hall _ Hc). }
  repeat split; try assumption.
  - unfold endswith. destruct (rev n) as [|c t] eqn:E; [reflexivity |].
    cbn. rewrite andb_true_r.
    assert (Hc : In c n) by (apply in_rev; rewrite E; now left).
    specialize (Hall _ Hc). unfold is_sep in Hall.
    apply orb_false_iff in Hall as [_ H]. now rewrite Ascii.eqb_sym.
  - destruct n as [|c t]; [reflexivity |]. cbn. rewrite andb_true_r.
    specialize (Hall c (or_introl eq_refl)). unfold is_sep in Hall.
    apply orb_false_iff in Hall as [_ H]. now rewrite Ascii.eqb_sym.
Qed.

Lemma joinable_append (a r : text) :
  existsb (Ascii.eqb backslash) a = false -> joinable r -> joinable (a ++ slash :: r).
Proof.
  intros Ha [Hne [He Hb]]. repeat split.
  - destruct a; discriminate.
  - rewrite (endswith_app_nonempty slash a (slash :: r)) by discriminate.
    change (slash :: r) with ([slash] ++ r). now rewrite endswith_app_nonempty.
  - rewrite existsb_app. cbn [existsb]. rewrite Ha, Hb. reflexivity.
Qed.

Lemma relative_append (a r : text) :
  relative a -> joinable r -> relative (a ++ slash :: r).
Proof.
  intros [[Hne [He Hb]] Hs] Hr. split.
  - now apply joinable_append.
  - destruct a; [congruence | exact Hs].
Qed.

(** The path of an entry of a directory, as the walk joins it. *)
Lemma child_plain (self : Globber.t) (top name : text) :
  plain_separator (Globber.sep self) -> joinable top -> entry_name name ->
  child self top name = top ++ slash :: name.
Proof.
  intros Hsep [Hne [He Hb]] Hn.
  apply entry_name_relative in Hn as [[Hn1 [Hn2 Hn3]] Hn4].
  unfold child. rewrite _join_paths_plain; [now apply join2_append | assumption |].
  rewrite join2_append by assumption.
  rewrite existsb_app. cbn [existsb]. now rewrite Hb, Hn3.
Qed.

(** ** Hidden names below [**] *)

Lemma walk_descends (self : Globber.t) (fuel : nat) (top : text) (items : list text)
  (name : text) (w : list (text * list text)) :
  Globber.listdir self top = Some items -> In name items -> enters self top name = true ->
  Globber.walk self (S fuel) top = ret w ->
  exists below, Globber.walk self fuel (child self top name) = ret below /\ incl below w.
Proof.
  intros Hl Hin He. rewrite walk_step, Hl. unfold cbind, ret.
  match goal with
  | |- match ?X with _ => _ end = _ -> _ => destruct X as [[rs|e]|] eqn:E; try discriminate
  end.
  intro H; injection H as <-.
  destruct (for_each_incl _ _ _ _ E Hin) as [ys [Hy Hi]]. cbv beta in Hy. rewrite He in Hy.
  exists ys. split; [assumption | now apply incl_tl].
Qed.





(** The tree of [TestIncludeHidden]: [**] returns the hidden entries below
    [a] and [b], and what is below the hidden directory [a/.foo]. *)
Example globstar_hidden_tree :
  Resolver.iglob (table_globber false hidden_tree) 4 (str "**") =
  ret [str "file.py"; str "file.txt"; str "a"; str "README"; str "b";
       str "a/.bar"; str "a/.foo"; str "a/.foo/hello.py"; str "a/.foo/world.txt";
       str "b/py"; str "b/.bar"].
Proof. reflexivity. Qed.

(** * Further properties of the code *)

(** ** The other wildcards *)

Lemma translate_one_qmark (pre suf : text) :
  has_magic pre = false -> has_magic suf = false ->
  translate (pre ++ qmark :: suf) =
  Ok (flat_map escape pre ++ str "(.)" ++ flat_map escape suf ++ str "\Z(?ms)").
Proof.
  intros Hp Hs. unfold translate.
  rewrite translate_loop_literal by assumption.
  rewrite translate_loop_equation_2.
  replace (Ascii.eqb qmark star) with false by reflexivity.
  replace (Ascii.eqb qmark qmark) with true by reflexivity.
  rewrite <- (app_nil_r suf) at 1. rewrite translate_loop_literal by assumption.
  rewrite translate_loop_equation_1. cbn [bind app]. now rewrite <- !app_assoc.
Qed.

Lemma _compile_pattern_one_qmark (pre suf : text) (cs : bool) :
  has_magic pre = false -> has_magic suf = false ->
  _compile_pattern (pre ++ qmark :: suf) cs =
  ret (mk_regex (literals pre ++ NOpen :: NChar AAny :: NClose :: literals suf ++ [NEndZ])
         true (negb cs)).
Proof.
  intros Hp Hs. unfold _compile_pattern. rewrite translate_one_qmark by assumption.
  cbn [lift cbind]. unfold re_compile. rewrite !steps_app.
  change p_init with (at_top [] false false false).
  rewrite steps_literals, steps_qmark, steps_literals, steps_end.
  cbn [cbind ret at_top p_mode p_open p_nodes p_dotall]. f_equal. f_equal. f_equal.
  fold (literals pre) (literals suf).
  cbn [rev]. rewrite app_nil_r, !rev_app_distr. cbn [rev app].
  rewrite !rev_involutive, <- !app_assoc. cbn [app]. reflexivity.
Qed.

(** What a case-sensitive pattern with one question mark matches. *)
Lemma re_match_one_qmark (pre suf N : text) :
  re_match (mk_regex (literals pre ++ NOpen :: NChar AAny :: NClose :: literals suf ++ [NEndZ])
              true false) N =
  if startswith pre N
  then match skipn (List.length pre) N with
       | c :: rest => if text_eqb suf rest then Some [[c]] else None
       | [] => None
       end
  else None.
Proof.
  unfold re_match. cbn [re_ignorecase re_dotall re_nodes].
  rewrite run_literals. destruct (startswith pre N); [| reflexivity].
  rewrite feeds_closed.
  change (run false true (NOpen :: ?r) ?s (mk_mstate None []))
    with (run false true r s (mk_mstate (Some []) [])).
  destruct (skipn (List.length pre) N) as [|c rest]; [reflexivity |].
  change (run false true (NChar AAny :: NClose :: ?r) (c :: rest) (mk_mstate (Some []) []))
    with (run false true r rest (mk_mstate None [[c]])).
  rewrite run_suffix, feeds_closed. now destruct (text_eqb suf rest).
Qed.

(** X1. For a pattern [pre?suf] with no other wildcard, case-sensitive
    matching and separators left as they are, [filter] keeps the name [N]
    exactly when [N] is [pre], one code unit and [suf], and the capture is
    that code unit: the question mark takes one code unit, never none and
    never two. *)
Theorem question_mark_takes_one_unit (self : Globber.t) (pre suf N : text) :
  has_magic pre = false -> has_magic suf = false ->
  Globber.case_sensitive self = true ->
  Globber.norm_paths self <> None \/
    (existsb is_sep (pre ++ suf) = false /\ existsb is_sep N = false) ->
  (exists c,
      N = pre ++ [c] ++ suf /\
      Globber.filter self [N] (pre ++ qmark :: suf) = ret [(N, [[c]])]) \/
  ((forall c, N <> pre ++ [c] ++ suf) /\
   Globber.filter self [N] (pre ++ qmark :: suf) = ret []).
Proof.
  intros Hp Hs Hcs Hn.
  assert (HP : Globber._norm_paths self (pre ++ qmark :: suf) = pre ++ qmark :: suf).
  { apply _norm_paths_fixes. destruct Hn as [H | [H _]]; [now left | right].
    rewrite existsb_app in *. cbn [existsb]. apply orb_false_iff in H as [-> ->]. reflexivity. }
  assert (HN : Globber._norm_paths self N = N).
  { apply _norm_paths_fixes. destruct Hn as [H | [_ H]]; auto. }
  unfold Globber.filter. rewrite HP, Hcs.
  rewrite _compile_pattern_one_qmark by assumption.
  cbn [cbind ret negb flat_map]. rewrite HN, re_match_one_qmark.
  destruct (startswith pre N) eqn:E1.
  - apply startswith_split in E1.
    destruct (skipn (List.length pre) N) as [|c rest] eqn:E2.
    + right. split; [| reflexivity]. intros c ->.
      rewrite skipn_length_app in E2. discriminate.
    + destruct (text_eqb suf rest) eqn:E3.
      * apply text_eqb_eq in E3. subst rest. left. exists c. split; [assumption |].
        cbn [map app]. rewrite _norm_paths_fixes; [reflexivity |].
        destruct Hn as [H | [_ H]]; [now left | right].
        rewrite E1, existsb_app in H. apply orb_false_iff in H as [_ H].
        cbn [existsb] in H |- *. apply orb_false_iff in H as [-> _]. reflexivity.
      * right. split; [| reflexivity]. intros c' E. rewrite E in E2.
        rewrite skipn_length_app in E2. cbn [app] in E2. injection E2 as _ <-.
        now rewrite text_eqb_refl in E3.
  - right. split; [| reflexivity]. intros c ->. now rewrite startswith_app in E1.
Qed.

Lemma question_mark_takes_one_unit_witness :
  has_magic (str "foo") = false /\ has_magic (@nil ascii) = false /\
  Globber.case_sensitive (table_globber false recursive_tree) = true /\
  (Globber.norm_paths (table_globber false recursive_tree) <> None \/
     (existsb is_sep (str "foo" ++ []) = false /\ existsb is_sep (str "fooA") = false)) /\
  ((exists c,
       str "fooA" = str "foo" ++ [c] ++ [] /\
       Globber.filter (table_globber false recursive_tree) [str "fooA"]
         (str "foo" ++ qmark :: []) = ret [(str "fooA", [[c]])]) \/
   ((forall c, str "fooA" <> str "foo" ++ [c] ++ []) /\
    Globber.filter (table_globber false recursive_tree) [str "fooA"]
      (str "foo" ++ qmark :: []) = ret [])).
Proof.
  split; [reflexivity |]. split; [reflexivity |]. split; [reflexivity |].
  split; [right; split; reflexivity |].
  apply (question_mark_takes_one_unit (table_globber false recursive_tree) (str "foo") []
           (str "fooA")); try reflexivity.
  right. split; reflexivity.
Defined.

(** ** [fnmatch], [fnmatchcase] and [filter] *)



(** X3. [fnmatch(name, '*')] is true for every name, for every separator
    that holds no backslash and every setting of the other options: the star
    matches the empty name, names that start with a dot and names with a
    newline. *)
Theorem fnmatch_star_accepts_every_name (self : Globber.t) (name : text) :
  Globber.fnmatch self name (str "*") = ret true.
Proof.
  unfold Globber.fnmatch, Globber.fnmatchcase. rewrite _norm_paths_star.
  change (str "*") with ([] ++ star :: []).
  rewrite (_compile_pattern_one_star [] [] (Globber.case_sensitive self) eq_refl eq_refl).
  cbn [cbind ret literals map app]. unfold re_match.
  cbn [re_ignorecase re_dotall re_nodes].
  change (run ?ic true (NOpen :: ?r) ?s (mk_mstate None []))
    with (run ic true r s (mk_mstate (Some []) [])).
  rewrite run_star_any. reflexivity.
Qed.

(** X4. [filter(names, pat)] returns, in their order and as often as they
    occur, the names that [fnmatch(name, pat)] accepts; it raises when
    [fnmatch] does. *)
Theorem filter_keeps_what_fnmatch_accepts (self : Globber.t) (names : list text)
  (pat : text) :
  (forall res,
      Globber.filter self names pat = ret res ->
      exists accepts : text -> bool,
        (forall name, Globber.fnmatch self name pat = ret (accepts name)) /\
        map fst res = List.filter accepts names) /\
  (forall e name,
      Globber.filter self names pat = throw e -> Globber.fnmatch self name pat = throw e).
Proof.
  unfold Globber.filter, Globber.fnmatch, Globber.fnmatchcase, cbind, ret, throw.
  destruct (_compile_pattern (Globber._norm_paths self pat) (Globber.case_sensitive self))
    as [[m|e]|]; split; try discriminate.
  - intros res H; injection H as <-.
    exists (fun name => match re_match m (Globber._norm_paths self name) with
                        | Some _ => true
                        | None => false
                        end).
    split; [reflexivity |].
    induction names as [|n names IH]; [reflexivity |].
    cbn [flat_map List.filter]. rewrite map_app, IH.
    now destruct (re_match m (Globber._norm_paths self n)).
  - intros e' name H. injection H as ->. reflexivity.
Qed.

(** ** The order and the directories of the walk *)

(** X6. What [walk(top)] yields: nothing when [top] cannot be listed, and
    otherwise [top] with its listing first; every pair is a directory with
    its own listing; every directory other than [top] is an entry of a
    directory that the walk yields, under the joined path, and it is no
    symbolic link unless [followlinks] is set. *)
Theorem walk_yields_listed_directories (self : Globber.t) (fuel : nat) (top : text)
  (w : list (text * list text)) :
  Globber.walk self fuel top = ret w ->
  (Globber.listdir self top = None -> w = []) /\
  (forall items, Globber.listdir self top = Some items ->
                 exists below, w = (top, items) :: below) /\
  (forall t entries,
      In (t, entries) w ->
      Globber.listdir self t = Some entries /\
      (t = top \/
       exists t' items' name,
         In (t', items') w /\ In name items' /\
         t = _join_paths [t'; name] (Globber.sep self) /\
         (Globber.followlinks self = true \/ Globber.islink self t = false))).
Proof.
  revert top w. induction fuel as [|fuel IH]; intros top w H; [discriminate |].
  pose proof H as Hw. rewrite walk_step in H.
  destruct (Globber.listdir self top) as [items|] eqn:El.
  - unfold cbind, ret in H.
    match type of H with
    | match ?X with _ => _ end = _ => destruct X as [[below|e]|] eqn:E; try discriminate
    end.
    injection H as <-. split; [discriminate |]. split.
    + intros items' Hi. injection Hi as <-. now exists below.
    + intros t entries Hin. split; [now apply (walk_listed self (S fuel) top _ t entries Hw) |].
      destruct Hin as [Hin | Hin]; [injection Hin as <- _; now left |].
      right. destruct (for_each_in _ _ _ _ E Hin) as [x [ys [Hx [Hf Hy]]]].
      cbv beta in Hf. destruct (enters self top x) eqn:He.
      * destruct (for_each_incl _ _ _ _ E Hx) as [ys' [Hf' Hi]].
        cbv beta in Hf'. rewrite He, Hf in Hf'. injection Hf' as <-.
        destruct (IH _ _ Hf) as [_ [_ Hrec]].
        destruct (Hrec t entries Hy) as [_ [-> | [t' [items' [name [H1 [H2 [H3 H4]]]]]]]].
        -- exists top, items, x. split; [now left |]. split; [assumption |].
           split; [reflexivity |]. unfold enters, child in He.
           apply orb_true_iff in He as [He | He]; [now left | right].
           now apply negb_true_iff in He.
        -- exists t', items', name. split; [right; now apply Hi |]. auto.
      * injection Hf as <-. contradiction.
  - injection H as <-. split; [reflexivity |]. split; [discriminate |].
    intros t entries [].
Qed.

Lemma walk_yields_listed_directories_witness :
  Globber.walk (table_globber false recursive_tree) 4 (str ".") =
    ret [(str ".", [str "file.py"; str "file.txt"; str "a"; str "README"; str "b"]);
         (str "./a", [str "bar.py"; str "foo"]);
         (str "./a/foo", [str "hello.py"; str "world.txt"]);
         (str "./b", [str "py"; str "bar.py"])] /\
  (forall items,
      Globber.listdir (table_globber false recursive_tree) (str ".") = Some items ->
      exists below,
        [(str ".", [str "file.py"; str "file.txt"; str "a"; str "README"; str "b"]);
         (str "./a", [str "bar.py"; str "foo"]);
         (str "./a/foo", [str "hello.py"; str "world.txt"]);
         (str "./b", [str "py"; str "bar.py"])] = (str ".", items) :: below).
Proof.
  split; [reflexivity |].
  apply (walk_yields_listed_directories (table_globber false recursive_tree) 4 (str ".")).
  reflexivity.
Defined.

(** ** Patterns that do not compile *)

Lemma alnum_differs (c x : ascii) :
  is_alnum c = true -> is_alnum x = false -> Ascii.eqb c x = false.
Proof.
  intros Hc Hx. destruct (Ascii.eqb c x) eqn:E; [| reflexivity].
  apply Ascii.eqb_eq in E. congruence.
Qed.

Lemma alnum_not_sep (c : ascii) : is_alnum c = true -> is_sep c = false.
Proof.
  intro H. unfold is_sep.
  rewrite (alnum_differs c backslash H eq_refl), (alnum_differs c slash H eq_refl). reflexivity.
Qed.

(** The class of a range between two letters or digits. *)
Definition range_class (lo hi : ascii) : text := [lbracket; lo; dash; hi; rbracket].

Lemma translate_range_class (lo hi : ascii) :
  is_alnum lo = true -> is_alnum hi = true ->
  translate (range_class lo hi) =
  Ok (str "([" ++ [lo; dash; hi] ++ str "])" ++ str "\Z(?ms)").
Proof.
  intros Hlo Hhi. unfold translate, range_class.
  rewrite translate_loop_equation_2.
  replace (Ascii.eqb lbracket star) with false by reflexivity.
  replace (Ascii.eqb lbracket qmark) with false by reflexivity.
  replace (Ascii.eqb lbracket lbracket) with true by reflexivity.
  rewrite class_end_cases.
  rewrite (Ascii.eqb_sym bang lo), (alnum_differs lo bang Hlo eq_refl).
  rewrite (Ascii.eqb_sym rbracket lo), (alnum_differs lo rbracket Hlo eq_refl).
  cbn [find_rbracket].
  rewrite (alnum_differs lo rbracket Hlo eq_refl), (alnum_differs hi rbracket Hhi eq_refl).
  replace (Ascii.eqb dash rbracket) with false by reflexivity.
  replace (Ascii.eqb rbracket rbracket) with true by reflexivity.
  cbn [option_map Nat.add firstn skipn].
  rewrite double_backslashes_other by (now apply alnum_differs).
  rewrite double_backslashes_other by reflexivity.
  rewrite double_backslashes_other by (now apply alnum_differs).
  cbn [double_backslashes flat_map].
  rewrite (alnum_differs lo bang Hlo eq_refl), (alnum_differs lo caret Hlo eq_refl).
  rewrite translate_loop_equation_1. reflexivity.
Qed.

(** X7. A class with a range that runs backwards between two letters or
    digits, as in [[z-a]], is translated but not compiled: [re.compile]
    raises [re.error], and so do [fnmatchcase], [filter] and, on a
    directory that can be listed, [resolve_pattern], where only [os.error]
    is caught. *)
Theorem backward_range_raises (self : Globber.t) (lo hi : ascii) :
  is_alnum lo = true -> is_alnum hi = true -> nat_of_ascii hi < nat_of_ascii lo ->
  (exists r, translate (range_class lo hi) = Ok r) /\
  (forall cs, _compile_pattern (range_class lo hi) cs = throw ReError) /\
  (forall name, Globber.fnmatchcase self name (range_class lo hi) = throw ReError) /\
  (forall names, Globber.filter self names (range_class lo hi) = throw ReError) /\
  (forall fuel dirname globstar_with_root names,
      Globber.listdir self (effective_dirname dirname) = Some names ->
      Globber.resolve_pattern self fuel dirname (range_class lo hi) globstar_with_root =
      throw ReError).
Proof.
  intros Hlo Hhi Hlt.
  assert (Hc : forall cs, _compile_pattern (range_class lo hi) cs = throw ReError).
  { intro cs. unfold _compile_pattern. rewrite translate_range_class by assumption.
    cbn [lift cbind]. unfold re_compile.
    change (str "([" ++ [lo; dash; hi] ++ str "])" ++ str "\Z(?ms)")
      with (str "([" ++ lo :: dash :: hi :: str "])\Z(?ms)").
    rewrite steps_app.
    change (steps (str "([") (ret p_init)) with (ret (in_set PSetNeg [NOpen] false false)).
    rewrite steps_cons.
    replace (step (in_set PSetNeg [NOpen] false false) lo)
      with (ret (in_set (PSetLit false [] lo) [NOpen] false false)).
    2: { unfold step, in_set. cbn [p_mode].
         rewrite (alnum_differs lo caret Hlo eq_refl). unfold step_set.
         rewrite (alnum_differs lo rbracket Hlo eq_refl),
           (alnum_differs lo backslash Hlo eq_refl). reflexivity. }
    rewrite steps_cons.
    change (step (in_set (PSetLit false [] lo) [NOpen] false false) dash)
      with (ret (in_set (PSetDash false [] lo) [NOpen] false false)).
    rewrite steps_cons.
    replace (step (in_set (PSetDash false [] lo) [NOpen] false false) hi)
      with (@throw pstate ReError).
    - rewrite steps_raise. reflexivity.
    - unfold step, in_set. cbn [p_mode].
      rewrite (alnum_differs hi rbracket Hhi eq_refl),
        (alnum_differs hi backslash Hhi eq_refl).
      unfold step_range. apply Nat.ltb_lt in Hlt. now rewrite Hlt. }
  assert (Hn : Globber._norm_paths self (range_class lo hi) = range_class lo hi).
  { apply _norm_paths_fixes. right. unfold range_class. cbn [existsb].
    rewrite (alnum_not_sep lo Hlo), (alnum_not_sep hi Hhi). reflexivity. }
  split; [eexists; now apply translate_range_class |].
  split; [exact Hc |].
  split; [intro name; unfold Globber.fnmatchcase; now rewrite Hc |].
  assert (Hf : forall names, Globber.filter self names (range_class lo hi) = throw ReError).
  { intro names. unfold Globber.filter. now rewrite Hn, Hc. }
  split; [exact Hf |].
  intros fuel dirname gwr names Hl.
  rewrite resolve_pattern_listing, Hl; [apply Hf | reflexivity |].
  unfold range_class. intro E. injection E as _ _ _ E. discriminate.
Qed.

Lemma backward_range_raises_witness :
  is_alnum "z" = true /\ is_alnum "a" = true /\ nat_of_ascii "a" < nat_of_ascii "z" /\
  (forall names,
      Globber.filter (table_globber false recursive_tree) names (range_class "z" "a") =
      throw ReError).
Proof.
  split; [reflexivity |]. split; [reflexivity |]. split; [cbn; lia |].
  apply (backward_range_raises (table_globber false recursive_tree) "z" "a");
    [reflexivity | reflexivity | cbn; lia].
Defined.

(** ** The names that [**] gives to the entries *)

Section RelativeNames.

Variable self : Globber.t.

Hypothesis Hsep : plain_separator (Globber.sep self).
Hypothesis Hnames :
  forall d items n, Globber.listdir self d = Some items -> In n items -> entry_name n.

(** The directories that the walk yields are [top] and paths below it. *)
Lemma walk_below_top (fuel : nat) (top : text) (w : list (text * list text)) :
  joinable top -> Globber.walk self fuel top = ret w ->
  forall t entries, In (t, entries) w ->
                    t = top \/ exists r, relative r /\ t = top ++ slash :: r.
Proof.
  revert top w. induction fuel as [|fuel IH]; intros top w Ht H; [discriminate |].
  rewrite walk_step in H. destruct (Globber.listdir self top) as [items|] eqn:El.
  - unfold cbind, ret in H.
    match type of H with
    | match ?X with _ => _ end = _ => destruct X as [[below|e]|] eqn:E; try discriminate
    end.
    injection H as <-. intros t entries [Hin | Hin]; [injection Hin as <- _; now left |].
    right. destruct (for_each_in _ _ _ _ E Hin) as [x [ys [Hx [Hf Hy]]]].
    cbv beta in Hf. destruct (enters self top x); [| injection Hf as <-; contradiction].
    pose proof (Hnames top items x El Hx) as Hn.
    rewrite (child_plain self top x Hsep Ht Hn) in Hf.
    pose proof (entry_name_relative x Hn) as Hr.
    assert (Hj : joinable (top ++ slash :: x)).
    { apply joinable_append; [apply Ht | apply Hr]. }
    destruct (IH _ _ Hj Hf t entries Hy) as [-> | [r [Hrel ->]]].
    + now exists x.
    + exists (x ++ slash :: r). split; [apply relative_append; [assumption | apply Hrel] |].
      now rewrite <- app_assoc.
  - injection H as <-. intros t entries [].
Qed.

(** X8. On a directory whose path has no slash at its end, with entry names
    without separator and a separator option that is not set or is the
    slash: every candidate name of [**] is empty, when the root is asked
    for, or it is the name relative to [dirname] of an entry that the walk
    listed: joined to [dirname] it gives the path of that entry. *)
Theorem globstar_names_are_relative (fuel : nat) (dirname : text)
  (globstar_with_root : bool) (names : list text) :
  joinable dirname ->
  Globber.globstar_names self fuel dirname globstar_with_root = ret names ->
  forall name,
    In name names ->
    (name = [] /\ globstar_with_root = true) \/
    exists top items s,
      Globber.listdir self top = Some items /\ In s items /\
      _join_paths [dirname; name] (Globber.sep self) =
      _join_paths [top; s] (Globber.sep self).
Proof.
  intros Hd. unfold Globber.globstar_names, cbind, ret.
  destruct (Globber.walk self fuel dirname) as [[w|e]|] eqn:W; try discriminate.
  intro H; injection H as <-. intros name Hin.
  apply in_app_or in Hin as [Hin | Hin].
  - left. destruct globstar_with_root; [| contradiction].
    destruct Hin as [<- | []]. now split.
  - right. apply in_flat_map in Hin as [[top entries] [Hw Hin]].
    apply in_map_iff in Hin as [s [Hs Hin]].
    pose proof (walk_listed self fuel dirname w top entries W Hw) as Hl.
    exists top, entries, s. split; [assumption |]. split; [assumption |].
    pose proof (Hnames top entries s Hl Hin) as Hn.
    pose proof (entry_name_relative s Hn) as [[Hs1 [Hs2 Hs3]] Hs4].
    destruct (walk_below_top fuel dirname w Hd W top entries Hw) as [-> | [r [Hr ->]]].
    + rewrite skipn_all2 in Hs by (rewrite Nat.add_1_r; auto).
      assert (E : name = s); [| now rewrite E].
      rewrite <- Hs. transitivity (join2 [] s); [| exact (join2_onto_empty s Hs4)].
      apply _join_paths_plain; [exact Hsep |]. now rewrite (join2_onto_empty s Hs4).
    + replace (skipn (List.length dirname + 1) (dirname ++ slash :: r)) with r in Hs.
      2: { rewrite skipn_app, skipn_all2 by lia.
           replace (List.length dirname + 1 - List.length dirname) with 1 by lia.
           reflexivity. }
      destruct Hr as [[Hr1 [Hr2 Hr3]] Hr4].
      assert (E : name = r ++ slash :: s).
      { rewrite <- Hs. transitivity (join2 r s); [| exact (join2_append r s Hr1 Hr2 Hs4)].
        apply _join_paths_plain; [exact Hsep |].
        rewrite (join2_append r s Hr1 Hr2 Hs4), existsb_app. cbn [existsb].
        now rewrite Hr3, Hs3. }
      clear Hs. subst name. unfold _join_paths. cbn [join fold_left].
      destruct Hd as [Hd1 [Hd2 Hd3]].
      rewrite (join2_append dirname (r ++ slash :: s)); [| assumption | assumption |].
      2: { destruct r; [congruence | exact Hr4]. }
      rewrite (join2_append (dirname ++ slash :: r) s); [| | | assumption].
      * now rewrite <- app_assoc.
      * destruct dirname; discriminate.
      * rewrite (endswith_app_nonempty slash dirname (slash :: r)) by discriminate.
        change (slash :: r) with ([slash] ++ r). now rewrite endswith_app_nonempty.
Qed.

End RelativeNames.

(** Entry names of a table, decided. *)
Definition entry_nameb (n : text) : bool :=
  negb (text_eqb n []) && negb (existsb is_sep n).

Definition table_entry_names (tbl : list (text * list text)) : bool :=
  forallb (fun e => forallb entry_nameb (snd e)) tbl.

Lemma table_entry_names_listdir (tbl : list (text * list text)) :
  table_entry_names tbl = true ->
  forall d items n, table_listdir tbl d = Some items -> In n items -> entry_name n.
Proof.
  intros H d items n Hl Hin. apply table_listdir_in in Hl.
  unfold table_entry_names in H. rewrite forallb_forall in H. specialize (H _ Hl).
  cbn [snd] in H. rewrite forallb_forall in H. specialize (H _ Hin).
  unfold entry_nameb in H. apply andb_true_iff in H as [H1 H2]. split.
  - intros ->. discriminate.
  - now apply negb_true_iff in H2.
Qed.

Lemma globstar_names_are_relative_witness :
  exists top items s,
    Globber.listdir (table_globber false recursive_tree) top = Some items /\ In s items /\
    _join_paths [str "a"; str "foo/hello.py"] (Some slash_separator) =
    _join_paths [top; s] (Some slash_separator).
Proof.
  assert (Hd : joinable (str "a")).
  { split; [discriminate | split; reflexivity]. }
  assert (Hin : In (str "foo/hello.py")
                   [str "bar.py"; str "foo"; str "foo/hello.py"; str "foo/world.txt"]).
  { right; right; left; reflexivity. }
  destruct (globstar_names_are_relative (table_globber false recursive_tree)
              (or_intror eq_refl) (table_entry_names_listdir recursive_tree eq_refl)
              5 (str "a") false _ Hd eq_refl (str "foo/hello.py") Hin) as [[H _] | H].
  - discriminate H.
  - exact H.
Defined.

(** X9. Below the root directory [/] the names of [**] lose a code unit:
    [top[len(dirname) + 1:]] skips the slash that [dirname] ends with and
    one more unit, so an entry [s] of the directory [/cr] gets the name of
    [r] joined to [s]. *)
Theorem globstar_below_root_loses_a_unit (self : Globber.t) (fuel : nat)
  (globstar_with_root : bool) (items items' : list text) (c : ascii) (r s : text)
  (names : list text) :
  plain_separator (Globber.sep self) ->
  Globber.listdir self (str "/") = Some items ->
  In (c :: r) items -> entry_name (c :: r) ->
  enters self (str "/") (c :: r) = true ->
  Globber.listdir self (slash :: c :: r) = Some items' -> In s items' ->
  Globber.globstar_names self fuel (str "/") globstar_with_root = ret names ->
  In (_join_paths [r; s] (Globber.sep self)) names.
Proof.
  intros Hsep Hl Hin Hn He Hl' Hs. unfold Globber.globstar_names, cbind, ret.
  destruct (Globber.walk self fuel (str "/")) as [[w|e]|] eqn:W; try discriminate.
  intro H; injection H as <-. apply in_or_app. right.
  destruct fuel as [|fuel]; [discriminate |].
  destruct (walk_descends self fuel (str "/") items (c :: r) w Hl Hin He W)
    as [below [Hb Hi]].
  assert (Hc : child self (str "/") (c :: r) = slash :: c :: r).
  { pose proof (entry_name_relative (c :: r) Hn) as [[_ [_ Hb3]] Hb4].
    unfold child. transitivity (join2 (str "/") (c :: r)).
    - apply _join_paths_plain; [exact Hsep |]. unfold join2. now rewrite Hb4.
    - unfold join2. now rewrite Hb4. }
  rewrite Hc in Hb. destruct fuel as [|fuel]; [discriminate |].
  rewrite walk_step, Hl' in Hb. unfold cbind, ret in Hb.
  match type of Hb with
  | match ?X with _ => _ end = _ => destruct X as [[rs|e]|]; try discriminate
  end.
  injection Hb as <-. apply in_flat_map. exists (slash :: c :: r, items'). split.
  - apply Hi. now left.
  - apply in_map_iff. exists s. split; [reflexivity | assumption].
Qed.

(** The directory [/usr] with its entry [bin]: [/**] names it [sr/bin]. *)
Definition root_tree : list (text * list text) :=
  [(str "/", [str "usr"]); (str "/usr", [str "bin"])].

Lemma globstar_below_root_loses_a_unit_witness :
  In (str "sr/bin") [str "usr"; str "sr/bin"].
Proof.
  assert (Hn : entry_name (str "usr")).
  { split; [discriminate | reflexivity]. }
  exact (globstar_below_root_loses_a_unit (table_globber false root_tree) 3 false
           [str "usr"] [str "bin"] "u"%char (str "sr") (str "bin") _
           (or_intror eq_refl) eq_refl (or_introl eq_refl) Hn eq_refl eq_refl
           (or_introl eq_refl) eq_refl).
Defined.

(** ** The capture of [**] *)

Lemma sub_seps_idempotent (sep x : text) :
  sub_seps sep sep = sep -> sub_seps sep (sub_seps sep x) = sub_seps sep x.
Proof.
  intro H. unfold sub_seps in *. induction x as [|c x IH]; [reflexivity |].
  cbn [flat_map]. rewrite flat_map_app, IH. f_equal.
  destruct (is_sep c) eqn:E; [exact H |]. cbn [flat_map]. now rewrite E.
Qed.

(** X10. Every result of [**] has one capture, the name normalised twice,
    by [filter] for the match and again for the capture: the name itself
    when [norm_paths] is set, and the name with every slash and backslash
    replaced by the separator when it is not and the separator is a text
    that this replacement leaves as it is. *)
Theorem globstar_has_one_capture (self : Globber.t) (fuel : nat) (dirname : text)
  (globstar_with_root : bool) (res : list found) :
  Globber.resolve_pattern self fuel dirname (str "**") globstar_with_root = ret res ->
  forall name groups,
    In (name, groups) res ->
    groups = [Globber._norm_paths self (Globber._norm_paths self name)] /\
    (Globber.norm_paths self <> None -> groups = [name]) /\
    (Globber.norm_paths self = None ->
     sub_seps (Globber.sep_or_os_sep self) (Globber.sep_or_os_sep self) =
       Globber.sep_or_os_sep self ->
     groups = [sub_seps (Globber.sep_or_os_sep self) name]).
Proof.
  intros H name groups Hin.
  destruct (resolve_pattern_globstar_results self fuel dirname globstar_with_root res H)
    as [names [_ ->]].
  apply in_map_iff in Hin as [n [E _]]. injection E as -> <-.
  split; [reflexivity |]. split.
  - intro Hn. now rewrite !(_norm_paths_fixes self) by (left; exact Hn).
  - intros Hn Hfix. unfold Globber._norm_paths. rewrite Hn.
    now rewrite sub_seps_idempotent.
Qed.

Lemma globstar_has_one_capture_witness :
  [str "foo/hello.py"] =
  [Globber._norm_paths (table_globber false recursive_tree)
     (Globber._norm_paths (table_globber false recursive_tree) (str "foo/hello.py"))].
Proof.
  assert (Hin : In (str "foo/hello.py", [str "foo/hello.py"])
                   [(str "bar.py", [str "bar.py"]); (str "foo", [str "foo"]);
                    (str "foo/hello.py", [str "foo/hello.py"]);
                    (str "foo/world.txt", [str "foo/world.txt"])]).
  { right; right; left; reflexivity. }
  exact (proj1 (globstar_has_one_capture (table_globber false recursive_tree) 5 (str "a")
                  false _ eq_refl (str "foo/hello.py") [str "foo/hello.py"] Hin)).
Defined.

Lemma skipn_length_app_cons (a : text) (x : ascii) (b : text) :
  skipn (S (List.length a)) (a ++ x :: b) = b.
Proof. induction a as [|y a IH]; [reflexivity | exact IH]. Qed.

(** ** Character classes *)

Lemma translate_loop_class (s res : text) (k : nat) (c0 : ascii) (tl : text) :
  class_end s = Some k -> double_backslashes (firstn k s) = c0 :: tl ->
  translate_loop (lbracket :: s) res =
  translate_loop (skipn (S k) s) (res ++ str "([" ++ class_text c0 tl ++ str "])").
Proof.
  intros Hk Hs. rewrite translate_loop_equation_2.
  replace (Ascii.eqb lbracket star) with false by reflexivity.
  replace (Ascii.eqb lbracket qmark) with false by reflexivity.
  replace (Ascii.eqb lbracket lbracket) with true by reflexivity.
  rewrite Hk, Hs. reflexivity.
Qed.

Lemma find_rbracket_alnum (seq rest : text) :
  forallb is_alnum seq = true ->
  find_rbracket (seq ++ rbracket :: rest) = Some (List.length seq).
Proof.
  induction seq as [|a seq IH]; cbn [forallb app find_rbracket List.length]; intro H.
  - replace (Ascii.eqb rbracket rbracket) with true by reflexivity. reflexivity.
  - apply andb_true_iff in H as [Ha Hs].
    rewrite (alnum_differs a rbracket Ha eq_refl), (IH Hs). reflexivity.
Qed.

Lemma double_backslashes_alnum (seq : text) :
  forallb is_alnum seq = true -> double_backslashes seq = seq.
Proof.
  induction seq as [|a seq IH]; [reflexivity |]. cbn [forallb]. intro H.
  apply andb_true_iff in H as [Ha Hs].
  rewrite double_backslashes_other by (now apply alnum_differs). now rewrite IH.
Qed.

Lemma firstn_length_app (a b : text) : firstn (List.length a) (a ++ b) = a.
Proof. induction a as [|x a IH]; [now destruct b | cbn; now rewrite IH]. Qed.

(** The text of a class of letters and digits, after the bracket that opens
    it: [seq] itself, or [seq] behind the mark of negation. *)
Definition class_body (neg : bool) (seq : text) : text :=
  if neg then bang :: seq else seq.

Lemma class_end_plain (neg : bool) (seq rest : text) :
  seq <> [] -> forallb is_alnum seq = true ->
  class_end (class_body neg seq ++ rbracket :: rest) =
  Some (List.length (class_body neg seq)).
Proof.
  intros Hne Ha. destruct seq as [|c0 tl]; [congruence |].
  pose proof Ha as Ha'. cbn [forallb] in Ha'. apply andb_true_iff in Ha' as [Hc _].
  rewrite class_end_cases. destruct neg; cbn [class_body app].
  - replace (Ascii.eqb bang bang) with true by reflexivity.
    rewrite (Ascii.eqb_sym rbracket c0), (alnum_differs c0 rbracket Hc eq_refl).
    change (c0 :: tl ++ rbracket :: rest) with ((c0 :: tl) ++ rbracket :: rest).
    rewrite (find_rbracket_alnum (c0 :: tl) rest Ha). reflexivity.
  - rewrite (Ascii.eqb_sym bang c0), (alnum_differs c0 bang Hc eq_refl).
    rewrite (Ascii.eqb_sym rbracket c0), (alnum_differs c0 rbracket Hc eq_refl).
    change (c0 :: tl ++ rbracket :: rest) with ((c0 :: tl) ++ rbracket :: rest).
    rewrite (find_rbracket_alnum (c0 :: tl) rest Ha). reflexivity.
Qed.

(** The class as [translate] writes it. *)
Definition class_regex (neg : bool) (seq : text) : text :=
  str "([" ++ (if neg then caret :: seq else seq) ++ str "])".

Lemma translate_one_class (neg : bool) (pre seq suf : text) :
  has_magic pre = false -> has_magic suf = false ->
  seq <> [] -> forallb is_alnum seq = true ->
  translate (pre ++ lbracket :: class_body neg seq ++ rbracket :: suf) =
  Ok (flat_map escape pre ++ class_regex neg seq ++ flat_map escape suf ++ str "\Z(?ms)").
Proof.
  intros Hp Hs Hne Ha. unfold translate.
  rewrite translate_loop_literal by assumption.
  assert (Hd : double_backslashes (class_body neg seq) = class_body neg seq).
  { destruct neg; cbn [class_body]; [| now apply double_backslashes_alnum].
    rewrite double_backslashes_other by reflexivity.
    now rewrite double_backslashes_alnum. }
  destruct (class_body neg seq) as [|c0 tl] eqn:Eb.
  { destruct neg; [discriminate | cbn in Eb; congruence]. }
  rewrite (translate_loop_class _ _ (List.length (c0 :: tl)) c0 tl).
  - rewrite skipn_length_app_cons.
    rewrite <- (app_nil_r suf) at 1. rewrite translate_loop_literal by assumption.
    rewrite translate_loop_equation_1. cbn [bind]. f_equal.
    rewrite <- !app_assoc. cbn [app]. f_equal. unfold class_regex.
    destruct seq as [|s0 seq']; [congruence |].
    cbn [forallb] in Ha. apply andb_true_iff in Ha as [Hc _].
    destruct neg; cbn [class_body] in Eb; injection Eb as <- <-; unfold class_text.
    + replace (Ascii.eqb bang bang) with true by reflexivity.
      cbn [str list_ascii_of_string app]. now rewrite <- !app_assoc.
    + rewrite (alnum_differs s0 bang Hc eq_refl), (alnum_differs s0 caret Hc eq_refl).
      cbn [str list_ascii_of_string app]. now rewrite <- !app_assoc.
  - rewrite <- Eb. now apply class_end_plain.
  - now rewrite firstn_length_app.
Qed.

Lemma steps_plain_items (neg : bool) (tl : text) (items : list cset_item) (c1 : ascii)
  (ns : list node) (ml da : bool) :
  forallb is_alnum tl = true ->
  steps (tl ++ [rbracket]) (ret (in_set (PSetLit neg items c1) ns ml da)) =
  ret (at_top (NChar (ASet neg (items ++ map CLit (c1 :: tl))) :: ns) true ml da).
Proof.
  revert items c1. induction tl as [|c tl IH]; intros items c1 H.
  - cbn [app]. rewrite steps_cons. unfold step, in_set. cbn [p_mode].
    replace (Ascii.eqb rbracket dash) with false by reflexivity.
    unfold step_set.
    replace (match items ++ [CLit c1] with [] => true | _ :: _ => false end)
      with false by (now destruct items).
    reflexivity.
  - cbn [forallb] in H. apply andb_true_iff in H as [Hc Ht].
    cbn [app]. rewrite steps_cons. unfold step, in_set. cbn [p_mode].
    rewrite (alnum_differs c dash Hc eq_refl). unfold step_set.
    rewrite (alnum_differs c rbracket Hc eq_refl), (alnum_differs c backslash Hc eq_refl).
    cbn [andb]. unfold set_mode. cbn [p_nodes p_open p_multiline p_dotall].
    fold (in_set (PSetLit neg (items ++ [CLit c1]) c) ns ml da).
    rewrite (IH _ _ Ht), <- app_assoc. reflexivity.
Qed.

Lemma steps_plain_class (neg : bool) (seq : text) (ns : list node) (ml da : bool) :
  seq <> [] -> forallb is_alnum seq = true ->
  steps (class_regex neg seq) (ret (at_top ns false ml da)) =
  ret (at_top (NClose :: NChar (ASet neg (map CLit seq)) :: NOpen :: ns) false ml da).
Proof.
  intros Hne Ha. destruct seq as [|c0 tl]; [congruence |].
  cbn [forallb] in Ha. apply andb_true_iff in Ha as [Hc Ht].
  assert (Hitems : forall b,
    steps (c0 :: tl ++ str "])") (ret (in_set (PSet b []) (NOpen :: ns) ml da)) =
    ret (at_top (NClose :: NChar (ASet b (map CLit (c0 :: tl))) :: NOpen :: ns) false ml da)).
  { intro b. rewrite steps_cons.
    rewrite (steps_first_item c0 b (NOpen :: ns) ml da (alnum_differs c0 backslash Hc eq_refl)).
    change (str "])") with ([rbracket] ++ [rparen]).
    rewrite app_assoc, steps_app, (steps_plain_items b tl [] c0 (NOpen :: ns) ml da Ht).
    reflexivity. }
  unfold class_regex. destruct neg.
  - exact (Hitems true).
  - rewrite <- (Hitems false).
    change (str "([" ++ (c0 :: tl) ++ str "])")
      with (lparen :: lbracket :: c0 :: tl ++ str "])").
    rewrite !steps_cons.
    change (step (at_top ns false ml da) lparen)
      with (ret (mk_pstate PParen ns false ml da)).
    rewrite steps_cons.
    change (step (mk_pstate PParen ns false ml da) lbracket)
      with (ret (in_set PSetNeg (NOpen :: ns) ml da)).
    rewrite steps_cons. f_equal.
    unfold step, in_set. cbn [p_mode].
    rewrite (alnum_differs c0 caret Hc eq_refl). reflexivity.
Qed.

Lemma _compile_pattern_one_class (neg : bool) (pre seq suf : text) (cs : bool) :
  has_magic pre = false -> has_magic suf = false ->
  seq <> [] -> forallb is_alnum seq = true ->
  _compile_pattern (pre ++ lbracket :: class_body neg seq ++ rbracket :: suf) cs =
  ret (mk_regex (literals pre ++ NOpen :: NChar (ASet neg (map CLit seq)) :: NClose ::
                 literals suf ++ [NEndZ]) true (negb cs)).
Proof.
  intros Hp Hs Hne Ha. unfold _compile_pattern.
  rewrite translate_one_class by assumption.
  cbn [lift cbind]. unfold re_compile. rewrite !steps_app.
  change p_init with (at_top [] false false false).
  rewrite steps_literals, (steps_plain_class neg seq _ false false Hne Ha),
    steps_literals, steps_end.
  cbn [cbind ret at_top p_mode p_open p_nodes p_dotall]. f_equal. f_equal. f_equal.
  fold (literals pre) (literals suf).
  cbn [rev]. rewrite app_nil_r, !rev_app_distr. cbn [rev app].
  rewrite !rev_involutive, <- !app_assoc. cbn [app]. reflexivity.
Qed.

Lemma set_has_literals (seq : text) (c : ascii) :
  set_has (map CLit seq) c = true <-> In c seq.
Proof.
  unfold set_has. rewrite existsb_exists. split.
  - intros [it [Hin H]]. apply in_map_iff in Hin as [x [<- Hx]].
    cbn in H. apply Ascii.eqb_eq in H. now subst.
  - intro H. exists (CLit c). split; [now apply in_map | apply Ascii.eqb_refl].
Qed.

(** What a case-sensitive pattern with one class matches. *)
Lemma re_match_one_class (neg : bool) (items : list cset_item) (pre suf N : text) :
  re_match (mk_regex (literals pre ++ NOpen :: NChar (ASet neg items) :: NClose ::
                      literals suf ++ [NEndZ]) true false) N =
  if startswith pre N
  then match skipn (List.length pre) N with
       | c :: rest =>
           if xorb neg (set_has items c)
           then if text_eqb suf rest then Some [[c]] else None
           else None
       | [] => None
       end
  else None.
Proof.
  unfold re_match. cbn [re_ignorecase re_dotall re_nodes].
  rewrite run_literals. destruct (startswith pre N); [| reflexivity].
  rewrite feeds_closed.
  change (run false true (NOpen :: ?r) ?s (mk_mstate None []))
    with (run false true r s (mk_mstate (Some []) [])).
  destruct (skipn (List.length pre) N) as [|c rest]; [reflexivity |].
  cbn [run accepts]. destruct (xorb neg (set_has items c)); [| reflexivity].
  change (run false true (NClose :: ?r) rest (feed c (mk_mstate (Some []) [])))
    with (run false true r rest (mk_mstate None [[c]])).
  rewrite run_suffix, feeds_closed. now destruct (text_eqb suf rest).
Qed.

(** X11. For a pattern [pre[seq]suf] or [pre[!seq]suf] whose class is made
    of letters and digits, with no other wildcard, case-sensitive matching
    and separators left as they are, [filter] keeps the name [N] exactly
    when [N] is [pre], one code unit and [suf], and that code unit is one of
    [seq], or none of them for the negated class; the capture is that code
    unit. *)
Theorem class_takes_one_listed_unit (self : Globber.t) (neg : bool)
  (pre seq suf N : text) :
  has_magic pre = false -> has_magic suf = false ->
  seq <> [] -> forallb is_alnum seq = true ->
  Globber.case_sensitive self = true ->
  Globber.norm_paths self <> None \/
    (existsb is_sep (pre ++ suf) = false /\ existsb is_sep N = false) ->
  (exists c,
      N = pre ++ [c] ++ suf /\ (In c seq <-> neg = false) /\
      Globber.filter self [N] (pre ++ lbracket :: class_body neg seq ++ rbracket :: suf) =
        ret [(N, [[c]])]) \/
  ((forall c, N = pre ++ [c] ++ suf -> (In c seq <-> neg = true)) /\
   Globber.filter self [N] (pre ++ lbracket :: class_body neg seq ++ rbracket :: suf) =
     ret []).
Proof.
  intros Hp Hs Hne Ha Hcs Hn.
  assert (Hseq : existsb is_sep seq = false).
  { clear Hne. induction seq as [|x seq IH]; [reflexivity |]. cbn [forallb] in Ha.
    apply andb_true_iff in Ha as [Hx Ha]. cbn [existsb].
    now rewrite (alnum_not_sep x Hx), IH. }
  assert (HP : Globber._norm_paths self
                 (pre ++ lbracket :: class_body neg seq ++ rbracket :: suf) =
               pre ++ lbracket :: class_body neg seq ++ rbracket :: suf).
  { apply _norm_paths_fixes. destruct Hn as [H | [H _]]; [now left | right].
    rewrite existsb_app in H. apply orb_false_iff in H as [H1 H2].
    rewrite existsb_app. cbn [existsb]. rewrite existsb_app. cbn [existsb].
    rewrite H1, H2. destruct neg; cbn [class_body existsb]; now rewrite Hseq. }
  assert (HN : Globber._norm_paths self N = N).
  { apply _norm_paths_fixes. destruct Hn as [H | [_ H]]; auto. }
  assert (Hmem : forall c, xorb neg (set_has (map CLit seq) c) = true <->
                           (In c seq <-> neg = false)).
  { intro c. pose proof (set_has_literals seq c) as Hm.
    destruct neg, (set_has (map CLit seq) c); cbn [xorb]; split; intro H;
      try reflexivity; try discriminate.
    - exfalso. destruct Hm as [Hm _]. specialize (Hm eq_refl).
      destruct H as [H _]. specialize (H Hm). discriminate.
    - split; [| discriminate]. intro Hc. apply Hm in Hc. discriminate.
    - split; [reflexivity |]. intros _. now apply Hm.
    - destruct H as [_ H]. specialize (H eq_refl). apply Hm in H. discriminate. }
  unfold Globber.filter. rewrite HP, Hcs.
  rewrite _compile_pattern_one_class by assumption.
  cbn [cbind ret negb flat_map]. rewrite HN, re_match_one_class.
  destruct (startswith pre N) eqn:E1.
  - apply startswith_split in E1.
    destruct (skipn (List.length pre) N) as [|c rest] eqn:E2.
    + right. split; [| reflexivity]. intros c ->.
      rewrite skipn_length_app in E2. discriminate.
    + destruct (xorb neg (set_has (map CLit seq) c)) eqn:E4.
      * destruct (text_eqb suf rest) eqn:E3.
        -- apply text_eqb_eq in E3. subst rest. left. exists c.
           split; [assumption |]. split; [now apply Hmem |].
           cbn [map app]. rewrite _norm_paths_fixes; [reflexivity |].
           destruct Hn as [H | [_ H]]; [now left | right].
           rewrite E1, existsb_app in H. apply orb_false_iff in H as [_ H].
           cbn [existsb] in H |- *. apply orb_false_iff in H as [-> _]. reflexivity.
        -- right. split; [| reflexivity]. intros c' E. exfalso. rewrite E in E2.
           rewrite skipn_length_app in E2. cbn [app] in E2. injection E2 as _ <-.
           now rewrite text_eqb_refl in E3.
      * right. split; [| reflexivity]. intros c' E. rewrite E in E2.
        rewrite skipn_length_app in E2. cbn [app] in E2. injection E2 as <- _.
        split; intro H.
        -- destruct neg; [reflexivity |]. exfalso.
           assert (Hx : xorb false (set_has (map CLit seq) c') = true)
             by (apply Hmem; tauto).
           congruence.
        -- subst neg. destruct (set_has (map CLit seq) c') eqn:Em;
             [now apply set_has_literals | discriminate].
  - right. split; [| reflexivity]. intros c ->. now rewrite startswith_app in E1.
Qed.

Lemma class_takes_one_listed_unit_witness :
  (exists c,
      str "fooC" = str "foo" ++ [c] ++ [] /\ (In c (str "AB") <-> true = false) /\
      Globber.filter (table_globber false recursive_tree) [str "fooC"]
        (str "foo" ++ lbracket :: class_body true (str "AB") ++ rbracket :: []) =
        ret [(str "fooC", [[c]])]) \/
  ((forall c, str "fooC" = str "foo" ++ [c] ++ [] -> (In c (str "AB") <-> true = true)) /\
   Globber.filter (table_globber false recursive_tree) [str "fooC"]
     (str "foo" ++ lbracket :: class_body true (str "AB") ++ rbracket :: []) = ret []).
Proof.
  apply (class_takes_one_listed_unit (table_globber false recursive_tree) true
           (str "foo") (str "AB") [] (str "fooC")); try reflexivity.
  - discriminate.
  - right. split; reflexivity.
Defined.

(** ** A wildcard below a literal directory *)

Lemma rfind_slash_succ_cut (d B : text) :
  existsb (Ascii.eqb slash) B = false ->
  rfind_slash_succ (d ++ slash :: B) = S (List.length d).
Proof.
  intro H. induction d as [|c d IH]; cbn [app rfind_slash_succ List.length].
  - rewrite (rfind_slash_succ_none B H).
    replace (Ascii.eqb slash slash) with true by reflexivity. reflexivity.
  - now rewrite IH.
Qed.

Lemma rstrip_fixes (d : text) : endswith [slash] d = false -> rstrip slash d = d.
Proof.
  unfold endswith, rstrip. cbn [rev app]. intro H.
  destruct (rev d) as [|x t] eqn:E.
  - apply (f_equal (@rev ascii)) in E. rewrite rev_involutive in E. now subst.
  - cbn [startswith] in H. rewrite andb_true_r in H. cbn [lstrip].
    rewrite Ascii.eqb_sym, H, <- E. apply rev_involutive.
Qed.

Lemma split_literal_directory (d B : text) :
  d <> [] -> endswith [slash] d = false -> existsb (Ascii.eqb slash) B = false ->
  split (d ++ slash :: B) = (d, B).
Proof.
  intros Hne He HB. unfold split. rewrite (rfind_slash_succ_cut d B HB).
  assert (Hf : firstn (S (List.length d)) (d ++ slash :: B) = d ++ [slash]).
  { replace (S (List.length d)) with (List.length (d ++ [slash]))
      by (rewrite length_app; cbn; lia).
    change (slash :: B) with ([slash] ++ B). rewrite app_assoc.
    apply firstn_length_app. }
  rewrite Hf, (skipn_length_app_cons d slash B).
  assert (H1 : text_eqb (d ++ [slash]) [] = false).
  { apply text_eqb_neq. now destruct d. }
  assert (H2 : text_eqb (d ++ [slash]) (repeat slash (List.length (d ++ [slash]))) = false).
  { apply text_eqb_neq. intro E.
    destruct (exists_last Hne) as [q [x Hq]]. subst d.
    assert (Hx : x = slash).
    { apply (repeat_spec (List.length ((q ++ [x]) ++ [slash])) slash x).
      rewrite <- E. apply in_or_app. left. apply in_or_app. right. now left. }
    subst x. unfold endswith in He. rewrite rev_app_distr in He.
    cbn in He. rewrite Ascii.eqb_refl in He. discriminate. }
  rewrite H1, H2. cbn [negb andb]. now rewrite rstrip_snoc, (rstrip_fixes d He).
Qed.

(** X12. A pattern [d/B] whose directory [d] has no wildcard, is not empty
    and does not end with a slash, and whose last segment [B] has a wildcard:
    [_iglob] resolves [B] in [d] alone, with the root asked for exactly when
    the call is not the root call, joins each name to [d] and leaves the
    captures as they are; it raises when [resolve_pattern] does. *)
Theorem wildcard_below_literal_directory (self : Globber.t) (fuel : nat) (d B : text)
  (rootcall : bool) :
  d <> [] -> endswith [slash] d = false -> has_magic d = false ->
  existsb (Ascii.eqb slash) B = false -> has_magic B = true ->
  Resolver._iglob self fuel (d ++ slash :: B) rootcall =
  (names <- Globber.resolve_pattern self fuel d B (negb rootcall) ;;
   ret (map (fun r => (_join_paths [d; fst r] (Globber.sep self), snd r)) names))%comp.
Proof.
  intros Hne He Hd HB Hm. rewrite _iglob_unfold.
  assert (Hp : has_magic (d ++ slash :: B) = true).
  { rewrite has_magic_app. change (has_magic (slash :: B)) with (is_magic slash || has_magic B).
    rewrite Hm. now rewrite !orb_true_r. }
  rewrite Hp, (split_literal_directory d B Hne He HB). cbn [fst snd].
  rewrite Hd, andb_false_r. cbn [cbind ret for_each]. unfold resolve_in, cbind, ret.
  destruct (Globber.resolve_pattern self fuel d B (negb rootcall)) as [[names|e]|];
    try reflexivity.
  rewrite app_nil_r. f_equal. f_equal. apply map_ext. now intros [name groups].
Qed.

Lemma wildcard_below_literal_directory_witness :
  Resolver._iglob (table_globber false recursive_tree) 4 (str "b" ++ slash :: str "**") true =
  ret [(str "b/py", [str "py"]); (str "b/bar.py", [str "bar.py"])].
Proof.
  rewrite (wildcard_below_literal_directory (table_globber false recursive_tree) 4
             (str "b") (str "**") true); [reflexivity | discriminate | reflexivity ..].
Defined.

(** * The scenarios of the test module

    What [tests/test_glob2.py] asserts, on the tables of its trees; the
    results are in the order of the generator, which the tests sort. *)

Example test_filter_everything :
  Globber.filter (table_globber false []) [str "fooABC"; str "barABC"; str "foo"] (str "foo*") =
    ret [(str "fooABC", [str "ABC"]); (str "foo", [[]])] /\
  Globber.filter (table_globber false []) [str "fooABC"; str "barABC"; str "foo"] (str "*AB*") =
    ret [(str "fooABC", [str "foo"; str "C"]); (str "barABC", [str "bar"; str "C"])].
Proof. split; reflexivity. Qed.

Example test_filter_single_character :
  Globber.filter (table_globber false []) [str "fooA"; str "barA"; str "foo"] (str "foo?") =
    ret [(str "fooA", [str "A"])] /\
  Globber.filter (table_globber false []) [str "fooA"; str "barA"; str "foo"] (str "???A") =
    ret [(str "fooA", [str "f"; str "o"; str "o"]); (str "barA", [str "b"; str "a"; str "r"])].
Proof. split; reflexivity. Qed.

Example test_sequence :
  Globber.filter (table_globber false []) [str "fooA"; str "fooB"; str "fooC"; str "foo"]
    (str "foo[AB]") = ret [(str "fooA", [str "A"]); (str "fooB", [str "B"])] /\
  Globber.filter (table_globber false []) [str "fooA"; str "fooB"; str "fooC"; str "foo"]
    (str "foo[!AB]") = ret [(str "fooC", [str "C"])].
Proof. split; reflexivity. Qed.

Example test_patterns :
  Resolver.iglob_matches (table_globber false patterns_tree) 4 (str "dir?/a-*") =
  ret [(str "dir1/a-file", [str "1"; str "file"])].
Proof. reflexivity. Qed.

Example test_recursive :
  Resolver.iglob_matches (table_globber false recursive_tree) 5 (str "**/*.py") =
  ret [(str "file.py", [[]; str "file"]); (str "a/bar.py", [str "a"; str "bar"]);
       (str "b/bar.py", [str "b"; str "bar"]);
       (str "a/foo/hello.py", [str "a/foo"; str "hello"])].
Proof. reflexivity. Qed.

Example test_exclude_root_directory :
  Resolver.iglob_matches (table_globber false recursive_tree) 5 (str "*/**/*.py") =
  ret [(str "a/bar.py", [str "a"; []; str "bar"]);
       (str "a/foo/hello.py", [str "a"; str "foo"; str "hello"]);
       (str "b/bar.py", [str "b"; []; str "bar"])].
Proof. reflexivity. Qed.

Example test_only_directories :
  Resolver.iglob_matches (table_globber false recursive_tree) 5 (str "**/") =
  ret [(str "a/", [str "a"]); (str "b/", [str "b"]); (str "a/foo/", [str "a/foo"])].
Proof. reflexivity. Qed.

Example test_fixed_basename :
  Resolver.iglob_matches (table_globber false recursive_tree) 5 (str "**/bar.py") =
  ret [(str "a/bar.py", [str "a"]); (str "b/bar.py", [str "b"])].
Proof. reflexivity. Qed.

Example test_root_directory_not_returned :
  Resolver.iglob_matches (table_globber false recursive_tree) 5 (str "b/**") =
  ret [(str "b/py", [str "py"]); (str "b/bar.py", [str "bar.py"])].
Proof. reflexivity. Qed.
